(** * Directed call pickup (apps/app_directed_pickup.c)

    A shallow embedding of the Asterisk application [Pickup] and the
    properties of its search-and-merge algorithm.

    - C strings are [string]s: the characters before the terminating NUL;
      a [char *] that may be NULL is an [option string].
    - C [int]s are [Z]; a value is true in a condition when it is not 0.
    - A [struct ast_channel *] is a [chan_ptr]; the fields it points to are
      read from the current [World] of the engine.
    - Calls into the engine (answer, queue control, masquerade, group
      pickup, locking, logging) are recorded in a trace of [event]s. *)

From Stdlib Require Import ZArith List String Ascii Bool Arith Lia.
From Equations Require Import Equations.
Import ListNotations.
Open Scope string_scope.
Open Scope list_scope.
Open Scope Z_scope.

(** ** C library and Asterisk string helpers *)

Module CStr.

(** [tolower] of the C locale. *)
Definition tolower (c : ascii) : ascii :=
  let n := nat_of_ascii c in
  if (Nat.leb 65 n && Nat.leb n 90)%bool then ascii_of_nat (n + 32) else c.

Definition code (c : ascii) : Z := Z.of_nat (nat_of_ascii c).

(** [strcasecmp(s1, s2)]: the strings are compared character by character
    after [tolower]; the result is negative, zero or positive.  A string
    that ends first is the smaller one. *)
Fixpoint strcasecmp (s1 s2 : string) : Z :=
  match s1, s2 with
  | EmptyString, EmptyString => 0
  | EmptyString, String _ _ => -1
  | String _ _, EmptyString => 1
  | String c1 r1, String c2 r2 =>
      let d := code (tolower c1) - code (tolower c2) in
      if d =? 0 then strcasecmp r1 r2 else d
  end.

(** [ast_strlen_zero(s)]: [s] is NULL or the empty string. *)
Definition ast_strlen_zero (s : option string) : bool :=
  match s with
  | None => true
  | Some EmptyString => true
  | Some (String _ _) => false
  end.

(** What comes of C code that reads through a pointer: its result, or
    the fault of reading through NULL. *)
Inductive outcome (A : Type) : Type :=
| Done (a : A)
| Segfault.
Arguments Done {A} a.
Arguments Segfault {A}.

(** Modelled from the spec: the macro [ast_strdupa] (asterisk/utils.h) is
    not part of the application's source; it yields a private, writable
    copy of the request string, which the parser then cuts in place.  The
    request of the specification is a string, possibly empty; the macro
    measures and copies the characters behind its argument, so for NULL
    it has no result. *)
Definition ast_strdupa (s : option string) : outcome (option string) :=
  match s with
  | Some x => Done (Some x)
  | None => Segfault
  end.

(** Length of the text a [char *] still points to, for loop termination. *)
Definition remaining (p : option string) : nat :=
  match p with
  | None => 0%nat
  | Some s => S (String.length s)
  end.

(** Reading the characters behind a [char *] the code has checked. *)
Definition str_of (p : option string) : string :=
  match p with
  | Some s => s
  | None => EmptyString
  end.

Fixpoint is_delim (c : ascii) (delim : string) : bool :=
  match delim with
  | EmptyString => false
  | String d r => (Ascii.eqb c d || is_delim c r)%bool
  end.

(** [strsep(&p, delim)] on a non-NULL [*p]: the token up to the first
    delimiter, and the new value of [*p]: the text after that delimiter,
    or NULL when there was none. *)
Fixpoint strsep_str (s delim : string) : string * option string :=
  match s with
  | EmptyString => (EmptyString, None)
  | String c r =>
      if is_delim c delim then (EmptyString, Some r)
      else let (tok, rest) := strsep_str r delim in (String c tok, rest)
  end.

(** [strsep(&p, delim)]: the returned token (NULL when [*p] is NULL) and
    the new value of [*p]. *)
Definition strsep (p : option string) (delim : string)
  : option string * option string :=
  match p with
  | None => (None, None)
  | Some s => let (tok, rest) := strsep_str s delim in (Some tok, rest)
  end.

Lemma strsep_remaining (p : option string) (delim : string) :
  ast_strlen_zero p = false ->
  (remaining (snd (strsep p delim)) < remaining p)%nat.
Proof.
  destruct p as [s|]; [intros _ | discriminate].
  assert (G : (remaining (snd (strsep_str s delim)) <= String.length s)%nat).
  { induction s as [|c r IH]; simpl; [lia|].
    destruct (is_delim c delim); simpl; [lia|].
    destruct (strsep_str r delim) as [tok rest]; simpl in *; lia. }
  unfold strsep. destruct (strsep_str s delim) as [tok rest].
  simpl in *. lia.
Qed.

(** [if ((context = strchr(exten, c))) *context++ = '\0';]: [exten] is cut
    at the first [c]; [context] is the text after it, or NULL when [c]
    does not occur. *)
Fixpoint strchr_cut (exten : string) (c : ascii) : string * option string :=
  match exten with
  | EmptyString => (EmptyString, None)
  | String a r =>
      if Ascii.eqb a c then (EmptyString, Some r)
      else let (e, ctx) := strchr_cut r c in (String a e, ctx)
  end.

(** Case-insensitive equality of two strings, as the specification words
    it: the strings agree once every letter is put in lower case. *)
Fixpoint lower (s : string) : string :=
  match s with
  | EmptyString => EmptyString
  | String c r => String (tolower c) (lower r)
  end.

Definition eq_nocase (a b : string) : Prop := lower a = lower b.

End CStr.
Import CStr.

(** A value together with the equation that names it, for a test whose
    outcome a termination argument needs. *)
Definition inspect {A : Type} (x : A) : {y : A | x = y} := exist _ x eq_refl.

(** A C condition [!x]. *)
Definition lnot (x : Z) : bool := x =? 0.
(** A C condition [x]. *)
Definition truthy (x : Z) : bool := negb (x =? 0).

(** ** The channel structure and the engine *)

(** Modelled from the spec: [enum ast_channel_state] is declared in
    asterisk/channel.h, which is not part of the application's source; the
    application names [AST_STATE_RINGING] and [AST_STATE_RING], the
    specification adds the answered state and "other" states. *)
Inductive ast_channel_state : Set :=
| AST_STATE_DOWN
| AST_STATE_RESERVED
| AST_STATE_OFFHOOK
| AST_STATE_DIALING
| AST_STATE_RING
| AST_STATE_RINGING
| AST_STATE_UP
| AST_STATE_BUSY.

Definition state_eqb (a b : ast_channel_state) : bool :=
  match a, b with
  | AST_STATE_DOWN, AST_STATE_DOWN
  | AST_STATE_RESERVED, AST_STATE_RESERVED
  | AST_STATE_OFFHOOK, AST_STATE_OFFHOOK
  | AST_STATE_DIALING, AST_STATE_DIALING
  | AST_STATE_RING, AST_STATE_RING
  | AST_STATE_RINGING, AST_STATE_RINGING
  | AST_STATE_UP, AST_STATE_UP
  | AST_STATE_BUSY, AST_STATE_BUSY => true
  | _, _ => false
  end.

(** A [struct ast_channel *] and a [struct ast_pbx *]. *)
Definition chan_ptr := N.
Definition pbx_ptr := N.

(** The fields of [struct ast_channel] the application reads. *)
Record ast_channel : Set := mk_channel {
  name : string;
  pbx : option pbx_ptr;          (* NULL when no dialplan runs the channel *)
  _state : ast_channel_state;
  context : string;
  exten : string;
  macroexten : string;
  dialcontext : string
}.

(** [target->exten] and [chan->context], for where a parameter of the same
    name hides the field. *)
Definition exten_of (c : ast_channel) : string := exten c.
Definition context_of (c : ast_channel) : string := context c.

Inductive ast_control : Set := AST_CONTROL_ANSWER.

Inductive log_level : Set := LOG_NOTICE | LOG_WARNING.

(** What the application asks of the engine, in the order it asks. *)
Inductive event : Set :=
| EvDebug (level : Z) (fmt : string) (args : list string)
| EvLog (level : log_level) (fmt : string) (args : list string)
| EvAnswer (chan : chan_ptr)
| EvQueueControl (chan : chan_ptr) (ctl : ast_control)
| EvMasquerade (original clone : chan_ptr)
| EvPickupCall (chan : chan_ptr)
| EvLock (target : chan_ptr)       (* ast_channel_walk_locked returned it *)
| EvUnlock (target : chan_ptr).    (* ast_channel_unlock *)

(** The engine the application runs in.  Its functions are not part of
    the application's source, so every property below holds whatever they
    return and whatever they do to the engine's state.  The registry is
    read as the specification describes it: one walk hands out the live
    channels one at a time, each locked, in an order that is fixed for
    the walk. *)
Class Engine : Type := {
  World : Type;
  (** the fields behind a channel pointer *)
  chan_at : World -> chan_ptr -> ast_channel;
  (** the order in which [ast_channel_walk_locked] hands out the channels *)
  channels : World -> list chan_ptr;
  (** [pbx_builtin_getvar_helper(chan, name)], NULL when undefined *)
  pbx_builtin_getvar_helper : World -> chan_ptr -> string -> option string;
  ast_answer : chan_ptr -> World -> Z * World;
  ast_queue_control : chan_ptr -> ast_control -> World -> Z * World;
  ast_channel_masquerade : chan_ptr -> chan_ptr -> World -> Z * World;
  ast_pickup_call : chan_ptr -> World -> Z * World
}.

(** ** Computations: engine state threaded through, events collected *)

Section Monad.
Context {E : Engine}.

Definition M (A : Type) : Type := World -> A * World * list event.

Definition ret {A} (a : A) : M A := fun w => (a, w, []).

Definition bind {A B} (m : M A) (f : A -> M B) : M B :=
  fun w =>
    let '(a, w1, t1) := m w in
    let '(b, w2, t2) := f a w1 in
    (b, w2, t1 ++ t2).

(** An engine call, recorded in the trace. *)
Definition call (f : World -> Z * World) (ev : event) : M Z :=
  fun w => let (r, w') := f w in (r, w', [ev]).

(** An engine call without a result. *)
Definition emit (ev : event) : M unit := fun w => (tt, w, [ev]).

(** Reading through a channel pointer. *)
Definition deref (p : chan_ptr) : M ast_channel :=
  fun w => (chan_at w p, w, []).

Definition get_world : M World := fun w => (w, w, []).

End Monad.

Notation "x <- m ;; k" := (bind m (fun x => k))
  (at level 61, m at next level, right associativity).
Notation "m ;; k" := (bind m (fun _ => k))
  (at level 61, right associativity).

Definition nl : string := String (ascii_of_nat 10) EmptyString.

Definition PICKUPMARK : string := "PICKUPMARK".

(** ** The application *)

Section Pickup.
Context {E : Engine}.

Definition ast_log (level : log_level) (fmt : string) (args : list string)
  : M unit := emit (EvLog level fmt args).

Definition ast_debug (level : Z) (fmt : string) (args : list string)
  : M unit := emit (EvDebug level fmt args).

(** Perform actual pickup between two channels. *)
Definition pickup_do (chan target : chan_ptr) : M Z :=
  c <- deref chan ;;
  t <- deref target ;;
  ast_debug 1 ("Call pickup on '%s' by '%s'" ++ nl)%string [name t; name c] ;;
  res <- call (ast_answer chan) (EvAnswer chan) ;;
  if truthy res then
    c <- deref chan ;;
    ast_log LOG_WARNING ("Unable to answer '%s'" ++ nl)%string [name c] ;;
    ret (-1)
  else
  res <- call (ast_queue_control chan AST_CONTROL_ANSWER)
              (EvQueueControl chan AST_CONTROL_ANSWER) ;;
  if truthy res then
    c <- deref chan ;;
    ast_log LOG_WARNING ("Unable to queue answer on '%s'" ++ nl)%string [name c] ;;
    ret (-1)
  else
  res <- call (ast_channel_masquerade target chan)
              (EvMasquerade target chan) ;;
  if truthy res then
    c <- deref chan ;;
    t <- deref target ;;
    ast_log LOG_WARNING ("Unable to masquerade '%s' into '%s'" ++ nl)%string
            [name c; name t] ;;
    ret (-1)
  else
  ret res.

(** Helper function that determines whether a channel is capable of being
    picked up. *)
Definition can_pickup (chan : ast_channel) : Z :=
  if (match pbx chan with None => true | Some _ => false end
      && (state_eqb (_state chan) AST_STATE_RINGING
          || state_eqb (_state chan) AST_STATE_RING))%bool
  then 1
  else 0.

(** The test of [pickup_by_exten] on the dialed extension and context. *)
Definition exten_match (target : ast_channel) (exten context : string)
  : bool :=
  ((lnot (strcasecmp (macroexten target) exten)
    || lnot (strcasecmp (exten_of target) exten))
   && lnot (strcasecmp (dialcontext target) context))%bool.

(** The [while ((target = ast_channel_walk_locked(target)))] loop of
    [pickup_by_exten]; [walk] is what the walk has yet to hand out. *)
Fixpoint pickup_by_exten_walk (chan : chan_ptr) (exten context : string)
         (walk : list chan_ptr) : M Z :=
  match walk with
  | [] => ret (-1)
  | target :: walk' =>
      emit (EvLock target) ;;
      t <- deref target ;;
      if (exten_match t exten context && truthy (can_pickup t))%bool then
        res <- pickup_do chan target ;;
        emit (EvUnlock target) ;;
        ret res
      else
        emit (EvUnlock target) ;;
        pickup_by_exten_walk chan exten context walk'
  end.

(** Attempt to pick up specified extension with context. *)
Definition pickup_by_exten (chan : chan_ptr) (exten context : string)
  : M Z :=
  w <- get_world ;;
  pickup_by_exten_walk chan exten context (channels w).

(** The test of [pickup_by_mark] on the channel variable. *)
Definition mark_match (w : World) (target : chan_ptr) (mark : string)
  : bool :=
  match pbx_builtin_getvar_helper w target PICKUPMARK with
  | Some tmp => lnot (strcasecmp tmp mark)
  | None => false
  end.

(** The walk of [pickup_by_mark]. *)
Fixpoint pickup_by_mark_walk (chan : chan_ptr) (mark : string)
         (walk : list chan_ptr) : M Z :=
  match walk with
  | [] => ret (-1)
  | target :: walk' =>
      emit (EvLock target) ;;
      w <- get_world ;;
      t <- deref target ;;
      if (mark_match w target mark && truthy (can_pickup t))%bool then
        res <- pickup_do chan target ;;
        emit (EvUnlock target) ;;
        ret res
      else
        emit (EvUnlock target) ;;
        pickup_by_mark_walk chan mark walk'
  end.

(** Attempt to pick up specified mark. *)
Definition pickup_by_mark (chan : chan_ptr) (mark : string) : M Z :=
  w <- get_world ;;
  pickup_by_mark_walk chan mark (channels w).

(** Lines 145 to 151 of [pickup_exec]: the scan chosen for one
    [exten[@context]]; both branches leave the loop on the same test of
    the scan's result, which is what this returns. *)
Definition pickup_exec_scan (chan : chan_ptr) (exten : string)
           (context : option string) : M Z :=
  if (negb (ast_strlen_zero context)
      && lnot (strcasecmp (str_of context) PICKUPMARK))%bool
  then pickup_by_mark chan exten
  else
    c <- deref chan ;;
    pickup_by_exten chan exten
      (if negb (ast_strlen_zero context) then str_of context
       else context_of c).

(** One turn of the parsing loop of [pickup_exec], on the token [exten]
    that [strsep] returned: lines 143 to 152.  The result tells whether
    the loop is left by [break]. *)
Definition pickup_exec_turn (chan : chan_ptr) (exten : string) : M bool :=
  let (exten, context) := strchr_cut exten "@" in
  r <- pickup_exec_scan chan exten context ;;
  if lnot r then ret true
  else
    ast_log LOG_NOTICE ("No target channel found for %s." ++ nl)%string
            [exten] ;;
    ret false.

(** The loop
    [while (!ast_strlen_zero(tmp) && (exten = strsep(&tmp, "&")))]. *)
Equations? pickup_exec_loop (chan : chan_ptr) (tmp : option string)
  : M unit by wf (remaining tmp) lt :=
  pickup_exec_loop chan tmp with inspect (ast_strlen_zero tmp) => {
    | exist _ true _ => ret tt
    | exist _ false Hlen =>
        match fst (strsep tmp "&") with
        | None => ret tt
        | Some exten =>
            brk <- pickup_exec_turn chan exten ;;
            if brk : bool then ret tt
            else pickup_exec_loop chan (snd (strsep tmp "&"))
        end }.
Proof.
  apply strsep_remaining. exact Hlen.
Qed.

(** Main application entry point. *)
Definition pickup_exec (chan : chan_ptr) (data : option string) (w : World)
  : outcome (Z * World * list event) :=
  let res := 0 in
  match ast_strdupa data with
  | Segfault => Segfault
  | Done tmp =>
      Done
        ((if ast_strlen_zero data then
            res <- call (ast_pickup_call chan) (EvPickupCall chan) ;;
            ret res
          else
            pickup_exec_loop chan tmp ;;
            ret res) w)
  end.

End Pickup.

(** ** A small engine to run the application on *)

Module Scenario.

Record entry : Set := mk_entry {
  ptr : chan_ptr;
  fields : ast_channel;
  vars : list (string * string)
}.

(** The registry in walk order, and what the engine's calls return. *)
Record world : Set := mk_world {
  registry : list entry;
  answer_rc : Z;
  queue_rc : Z;
  masquerade_rc : Z;
  group_rc : Z
}.

Definition no_channel : ast_channel :=
  mk_channel "" None AST_STATE_DOWN "" "" "" "".

Fixpoint lookup (p : chan_ptr) (l : list entry) : option entry :=
  match l with
  | [] => None
  | e :: l' => if N.eqb (ptr e) p then Some e else lookup p l'
  end.

Fixpoint getvar (n : string) (l : list (string * string)) : option string :=
  match l with
  | [] => None
  | (k, v) :: l' => if String.eqb k n then Some v else getvar n l'
  end.

Definition set_state (s : ast_channel_state) (c : ast_channel)
  : ast_channel :=
  mk_channel (name c) (pbx c) s (context c) (exten c) (macroexten c)
             (dialcontext c).

(** Answering a channel brings it up. *)
Definition answer (p : chan_ptr) (w : world) : Z * world :=
  if answer_rc w =? 0 then
    (0, mk_world
          (map (fun e => if N.eqb (ptr e) p
                         then mk_entry (ptr e) (set_state AST_STATE_UP (fields e))
                                       (vars e)
                         else e) (registry w))
          (answer_rc w) (queue_rc w) (masquerade_rc w) (group_rc w))
  else (answer_rc w, w).

#[export] Instance engine : Engine := {|
  World := world;
  chan_at := fun w p =>
    match lookup p (registry w) with
    | Some e => fields e
    | None => no_channel
    end;
  channels := fun w => map ptr (registry w);
  pbx_builtin_getvar_helper := fun w p n =>
    match lookup p (registry w) with
    | Some e => getvar n (vars e)
    | None => None
    end;
  ast_answer := answer;
  ast_queue_control := fun _ _ w => (queue_rc w, w);
  ast_channel_masquerade := fun _ _ w => (masquerade_rc w, w);
  ast_pickup_call := fun _ w => (group_rc w, w)
|}.

(** The requester: a channel run by the dialplan, in context "default". *)
Definition requester : entry :=
  mk_entry 1%N (mk_channel "SIP/a-1" (Some 7%N) AST_STATE_UP "default" "s" "" "")
           [].

(** A call ringing extension 100 of context "default". *)
Definition ringing_100 : entry :=
  mk_entry 2%N (mk_channel "SIP/b-2" None AST_STATE_RINGING "" "100" ""
                         "default")
           [].

(** A ringing call marked "sales1". *)
Definition marked_sales1 : entry :=
  mk_entry 3%N (mk_channel "SIP/c-3" None AST_STATE_RINGING "" "300" ""
                         "default")
           [("PICKUPMARK", "sales1")].

(** A ringing call marked "10". *)
Definition marked_10 : entry :=
  mk_entry 4%N (mk_channel "SIP/d-4" None AST_STATE_RING "" "400" ""
                         "office")
           [("PICKUPMARK", "10")].

(** A call ringing extension 20 of context "default". *)
Definition ringing_20 : entry :=
  mk_entry 5%N (mk_channel "SIP/e-5" None AST_STATE_RINGING "" "20" ""
                         "default")
           [].

(** A second call ringing extension 100 of context "default". *)
Definition ringing_100_too : entry :=
  mk_entry 6%N (mk_channel "SIP/f-6" None AST_STATE_RING "" "s" "100"
                           "Default")
           [].

(** Every engine call succeeds. *)
Definition all_ok (l : list entry) : world := mk_world l 0 0 0 0.

(** The transport-level answer fails. *)
Definition answer_fails (l : list entry) : world := mk_world l (-1) 0 0 0.

(** Scenario A: extension 100 rings twice in "default", all goes well. *)
Definition world_A : @World engine :=
  all_ok [requester; ringing_100; ringing_100_too].

(** Scenario C: a call marked "sales1" rings. *)
Definition world_C : @World engine := all_ok [requester; marked_sales1].

(** Scenario D: extension 100 rings, the requester cannot be answered. *)
Definition world_D : @World engine := answer_fails [requester; ringing_100].

(** A call marked "10" and a call to extension 20 ring, and the requester
    cannot be answered. *)
Definition world_marked : @World engine :=
  answer_fails [requester; marked_10; ringing_20].



End Scenario.

(** ** Vocabulary of the properties *)

Section Vocabulary.
Context {E : Engine}.

(** The whole test of the extension walk on the channel behind [p]. *)
Definition exten_passes (w : World) (exten context : string) (p : chan_ptr)
  : bool :=
  (exten_match (chan_at w p) exten context
   && truthy (can_pickup (chan_at w p)))%bool.

(** The whole test of the mark walk on the channel behind [p]. *)
Definition mark_passes (w : World) (mark : string) (p : chan_ptr) : bool :=
  (mark_match w p mark && truthy (can_pickup (chan_at w p)))%bool.

(** The trace of a walk over channels that are all passed over. *)
Definition passed_over (l : list chan_ptr) : list event :=
  flat_map (fun p => [EvLock p; EvUnlock p]) l.

(** The notice of line 152. *)
Definition no_target (exten : string) : event :=
  EvLog LOG_NOTICE ("No target channel found for %s." ++ nl)%string [exten].

(** A channel is eligible as the specification defines it. *)
Definition eligible (c : ast_channel) : Prop :=
  pbx c = None /\
  (_state c = AST_STATE_RINGING \/ _state c = AST_STATE_RING).

(** The character [c] does not occur in [s]. *)
Fixpoint free_of (c : ascii) (s : string) : Prop :=
  match s with
  | EmptyString => True
  | String a r => a <> c /\ free_of c r
  end.

(** Trying the specs of a list in order, up to the first whose scan
    returns 0: what the parsing loop does once the request is cut. *)
Fixpoint try_specs (chan : chan_ptr) (specs : list string) : M unit :=
  match specs with
  | [] => ret tt
  | spec :: specs' =>
      brk <- pickup_exec_turn chan spec ;;
      if brk : bool then ret tt else try_specs chan specs'
  end.

(** The request that lists the specs with "&" between them. *)
Fixpoint join_amp (specs : list string) : string :=
  match specs with
  | [] => EmptyString
  | spec :: specs' =>
      match specs' with
      | [] => spec
      | _ :: _ => (spec ++ "&" ++ join_amp specs')%string
      end
  end.

(** The last spec of the list, if any, is not empty. *)
Fixpoint last_nonempty (specs : list string) : Prop :=
  match specs with
  | [] => True
  | spec :: specs' =>
      match specs' with
      | [] => spec <> EmptyString
      | _ :: _ => last_nonempty specs'
      end
  end.

(** The locking discipline of a trace that starts with [held] locked:
    a channel is locked only while none is, unlocked only while it is the
    one locked, the requester is answered and signalled only under a
    lock, a channel is masqueraded only while it is the one locked, and
    the group pickup is called only while none is.  The result is the
    lock held at the end, or [None] when the discipline is broken. *)
Fixpoint locks_after (held : option chan_ptr) (tr : list event)
  : option (option chan_ptr) :=
  match tr with
  | [] => Some held
  | EvLock p :: tr' =>
      match held with
      | None => locks_after (Some p) tr'
      | Some _ => None
      end
  | EvUnlock p :: tr' =>
      match held with
      | Some q => if N.eqb p q then locks_after None tr' else None
      | None => None
      end
  | EvMasquerade original _ :: tr' =>
      match held with
      | Some q => if N.eqb original q then locks_after held tr' else None
      | None => None
      end
  | EvAnswer _ :: tr' | EvQueueControl _ _ :: tr' =>
      match held with
      | Some _ => locks_after held tr'
      | None => None
      end
  | EvPickupCall _ :: tr' =>
      match held with
      | None => locks_after held tr'
      | Some _ => None
      end
  | EvDebug _ _ _ :: tr' | EvLog _ _ _ :: tr' => locks_after held tr'
  end.

(** The event is a call of the group pickup. *)
Definition is_group_pickup (ev : event) : bool :=
  match ev with
  | EvPickupCall _ => true
  | _ => false
  end.

End Vocabulary.

(** ** Properties *)

(** *** Strings *)

Lemma code_tolower_inj (a b : ascii) :
  code (tolower a) - code (tolower b) = 0 <-> tolower a = tolower b.
Proof.
  unfold code. split; intro H.
  - assert (G : nat_of_ascii (tolower a) = nat_of_ascii (tolower b)) by lia.
    rewrite <- (ascii_nat_embedding (tolower a)), G.
    apply ascii_nat_embedding.
  - rewrite H. lia.
Qed.

Lemma strcasecmp_zero (a b : string) :
  strcasecmp a b = 0 <-> eq_nocase a b.
Proof.
  unfold eq_nocase. revert b.
  induction a as [|c1 r1 IH]; intros [|c2 r2]; simpl;
    try (split; [discriminate | discriminate]); [tauto|].
  destruct (Z.eqb_spec (code (tolower c1) - code (tolower c2)) 0) as [e|n].
  - apply code_tolower_inj in e. rewrite e, IH.
    split; intro H; [now rewrite H | now injection H].
  - split; intro H; [contradiction|].
    injection H as H1 _. apply code_tolower_inj in H1. contradiction.
Qed.

Lemma lnot_strcasecmp (a b : string) :
  lnot (strcasecmp a b) = true <-> eq_nocase a b.
Proof.
  unfold lnot. rewrite Z.eqb_eq. apply strcasecmp_zero.
Qed.

Lemma eq_nocase_sym (a b : string) : eq_nocase a b -> eq_nocase b a.
Proof. unfold eq_nocase. intro H. symmetry. exact H. Qed.

Lemma strchr_cut_free (c : ascii) (s : string) :
  free_of c s -> strchr_cut s c = (s, None).
Proof.
  induction s as [|a r IH]; simpl; [reflexivity|].
  intros [Ha Hr]. destruct (Ascii.eqb_spec a c) as [e|_]; [contradiction|].
  rewrite (IH Hr). reflexivity.
Qed.

Lemma strchr_cut_app (c : ascii) (s rest : string) :
  free_of c s ->
  strchr_cut (s ++ String c rest)%string c = (s, Some rest).
Proof.
  induction s as [|a r IH]; simpl.
  - intros _. rewrite Ascii.eqb_refl. reflexivity.
  - intros [Ha Hr]. destruct (Ascii.eqb_spec a c) as [e|_]; [contradiction|].
    rewrite (IH Hr). reflexivity.
Qed.

Lemma strsep_str_free (c : ascii) (s : string) :
  free_of c s -> strsep_str s (String c EmptyString) = (s, None).
Proof.
  induction s as [|a r IH]; simpl; [reflexivity|].
  intros [Ha Hr]. destruct (Ascii.eqb_spec a c) as [e|_]; [contradiction|].
  simpl. rewrite (IH Hr). reflexivity.
Qed.

Lemma strsep_str_app (c : ascii) (s rest : string) :
  free_of c s ->
  strsep_str (s ++ String c rest)%string (String c EmptyString)
  = (s, Some rest).
Proof.
  induction s as [|a r IH]; simpl.
  - intros _. rewrite Ascii.eqb_refl. reflexivity.
  - intros [Ha Hr]. destruct (Ascii.eqb_spec a c) as [e|_]; [contradiction|].
    simpl. rewrite (IH Hr). reflexivity.
Qed.

Lemma free_of_app (c : ascii) (s t : string) :
  free_of c s -> free_of c t -> free_of c (s ++ t)%string.
Proof.
  induction s as [|a r IH]; simpl; [tauto|].
  intros [Ha Hr] Ht. split; [exact Ha | apply IH; assumption].
Qed.

Lemma append_String_end (s : string) (c : ascii) (rest : string) :
  (s ++ String c rest)%string = ((s ++ String c EmptyString) ++ rest)%string.
Proof.
  induction s as [|a r IH]; simpl; [reflexivity|]. rewrite IH. reflexivity.
Qed.

Lemma append_nonempty (s : string) (c : ascii) (rest : string) :
  (s ++ String c rest)%string <> EmptyString.
Proof. destruct s; discriminate. Qed.

Section Properties.
Context {E : Engine}.

(** *** Running computations *)

Lemma run_bind {A B} (m : M A) (f : A -> M B) (w : World) :
  bind m f w =
  let '(a, w1, t1) := m w in
  let '(b, w2, t2) := f a w1 in (b, w2, t1 ++ t2).
Proof. reflexivity. Qed.

Lemma run_emit_bind {B} (ev : event) (k : M B) (w : World) :
  (emit ev ;; k) w = let '(b, w2, t2) := k w in (b, w2, ev :: t2).
Proof. reflexivity. Qed.

Lemma run_deref_bind {B} (p : chan_ptr) (f : ast_channel -> M B) (w : World) :
  (c <- deref p ;; f c) w = f (chan_at w p) w.
Proof.
  unfold bind, deref. destruct (f (chan_at w p) w) as [[b w2] t2].
  reflexivity.
Qed.

Lemma run_get_bind {B} (f : World -> M B) (w : World) :
  (x <- get_world ;; f x) w = f w w.
Proof.
  unfold bind, get_world. destruct (f w w) as [[b w2] t2]. reflexivity.
Qed.

Lemma truthy_true (x : Z) : truthy x = true <-> x <> 0.
Proof. unfold truthy. rewrite negb_true_iff. apply Z.eqb_neq. Qed.

(** *** The eligibility predicate *)

Lemma can_pickup_eligible (c : ast_channel) :
  can_pickup c = 1 <-> eligible c.
Proof.
  unfold can_pickup, eligible.
  destruct (pbx c) as [x|]; destruct (_state c); simpl;
    split; try discriminate; try tauto;
    try (intros [H _]; discriminate H);
    try (intros [_ [H|H]]; discriminate H).
Qed.

Lemma can_pickup_values (c : ast_channel) :
  can_pickup c = 1 \/ can_pickup c = 0.
Proof. unfold can_pickup. destruct (_ && _)%bool; auto. Qed.

Lemma truthy_can_pickup (c : ast_channel) :
  truthy (can_pickup c) = true <-> eligible c.
Proof.
  rewrite <- can_pickup_eligible, truthy_true.
  destruct (can_pickup_values c) as [H|H]; rewrite H; split; lia || easy.
Qed.

Lemma ineligible_not_truthy (c : ast_channel) :
  ~ eligible c -> truthy (can_pickup c) = false.
Proof.
  intro H. destruct (truthy (can_pickup c)) eqn:T; [|reflexivity].
  apply truthy_can_pickup in T. contradiction.
Qed.

(** *** One step of a walk *)

Lemma exten_walk_skip (chan target : chan_ptr) (exten context : string)
      (walk : list chan_ptr) (w : World) :
  exten_passes w exten context target = false ->
  pickup_by_exten_walk chan exten context (target :: walk) w =
  let '(r, w', tr) := pickup_by_exten_walk chan exten context walk w in
  (r, w', EvLock target :: EvUnlock target :: tr).
Proof.
  unfold exten_passes. intro H. simpl.
  rewrite run_emit_bind, run_deref_bind, H, run_emit_bind.
  destruct (pickup_by_exten_walk chan exten context walk w) as [[r w'] tr].
  reflexivity.
Qed.

Lemma exten_walk_take (chan target : chan_ptr) (exten context : string)
      (walk : list chan_ptr) (w : World) :
  exten_passes w exten context target = true ->
  pickup_by_exten_walk chan exten context (target :: walk) w =
  let '(r, w', tr) := pickup_do chan target w in
  (r, w', EvLock target :: tr ++ [EvUnlock target]).
Proof.
  unfold exten_passes. intro H. simpl.
  rewrite run_emit_bind, run_deref_bind, H, run_bind.
  destruct (pickup_do chan target w) as [[r w'] tr].
  reflexivity.
Qed.

Lemma mark_walk_skip (chan target : chan_ptr) (mark : string)
      (walk : list chan_ptr) (w : World) :
  mark_passes w mark target = false ->
  pickup_by_mark_walk chan mark (target :: walk) w =
  let '(r, w', tr) := pickup_by_mark_walk chan mark walk w in
  (r, w', EvLock target :: EvUnlock target :: tr).
Proof.
  unfold mark_passes. intro H. simpl.
  rewrite run_emit_bind, run_get_bind, run_deref_bind, H, run_emit_bind.
  destruct (pickup_by_mark_walk chan mark walk w) as [[r w'] tr].
  reflexivity.
Qed.

Lemma mark_walk_take (chan target : chan_ptr) (mark : string)
      (walk : list chan_ptr) (w : World) :
  mark_passes w mark target = true ->
  pickup_by_mark_walk chan mark (target :: walk) w =
  let '(r, w', tr) := pickup_do chan target w in
  (r, w', EvLock target :: tr ++ [EvUnlock target]).
Proof.
  unfold mark_passes. intro H. simpl.
  rewrite run_emit_bind, run_get_bind, run_deref_bind, H, run_bind.
  destruct (pickup_do chan target w) as [[r w'] tr].
  reflexivity.
Qed.

Lemma exten_match_spec (t : ast_channel) (exten context : string) :
  exten_match t exten context = true <->
  (eq_nocase exten (exten_of t) \/ eq_nocase exten (macroexten t)) /\
  eq_nocase context (dialcontext t).
Proof.
  unfold exten_match.
  rewrite andb_true_iff, orb_true_iff, !lnot_strcasecmp.
  split; intros [[H|H] G]; split;
    auto using eq_nocase_sym.
Qed.

Lemma mark_match_spec (w : World) (target : chan_ptr) (mark : string) :
  mark_match w target mark = true <->
  exists tmp, pbx_builtin_getvar_helper w target PICKUPMARK = Some tmp /\
              eq_nocase tmp mark.
Proof.
  unfold mark_match.
  destruct (pbx_builtin_getvar_helper w target PICKUPMARK) as [tmp|].
  - rewrite lnot_strcasecmp. split.
    + intro H. exists tmp. auto.
    + intros [v [Hv H]]. injection Hv as <-. exact H.
  - split; [discriminate | intros [v [Hv _]]; discriminate].
Qed.

(** *** Claims on the predicates *)

(** C5. [can_pickup] answers 1 exactly for a channel that no dialplan runs
    ([pbx] is NULL) and whose state is RINGING or RING, and 0 otherwise.
    Hence a channel with a [pbx], whatever its state, and a channel in
    another state, whatever its [pbx], is locked, unlocked and passed over
    by both walks, whatever the match test says of it. *)
Theorem can_pickup_eligibility (c : ast_channel) :
  (can_pickup c = 1 <-> eligible c) /\
  (can_pickup c = 0 <-> ~ eligible c) /\
  forall (chan target : chan_ptr) (exten context mark : string)
         (walk : list chan_ptr) (w : World),
    chan_at w target = c ->
    pbx c <> None \/
    (_state c <> AST_STATE_RINGING /\ _state c <> AST_STATE_RING) ->
    pickup_by_exten_walk chan exten context (target :: walk) w =
      (let '(r, w', tr) := pickup_by_exten_walk chan exten context walk w in
       (r, w', EvLock target :: EvUnlock target :: tr)) /\
    pickup_by_mark_walk chan mark (target :: walk) w =
      (let '(r, w', tr) := pickup_by_mark_walk chan mark walk w in
       (r, w', EvLock target :: EvUnlock target :: tr)).
Proof.
  split; [apply can_pickup_eligible|]. split.
  - rewrite <- can_pickup_eligible.
    destruct (can_pickup_values c) as [H|H]; rewrite H; split; lia || easy.
  - intros chan target exten context mark walk w Hc Hin.
    assert (T : truthy (can_pickup (chan_at w target)) = false).
    { rewrite Hc. apply ineligible_not_truthy. unfold eligible.
      destruct Hin as [H|[H1 H2]]; tauto. }
    split.
    + apply exten_walk_skip. unfold exten_passes. rewrite T.
      apply andb_false_r.
    + apply mark_walk_skip. unfold mark_passes. rewrite T.
      apply andb_false_r.
Qed.

(** C6. The test of the extension walk on a channel passes exactly when
    the requested extension equals, letter case apart, the channel's
    [exten] or its [macroexten], and the requested context equals, letter
    case apart, the channel's [dialcontext].  The walk hands an eligible
    channel that passes to [pickup_do] and passes over a channel that
    fails. *)
Theorem exten_match_case_insensitive (t : ast_channel)
        (exten context : string) :
  (exten_match t exten context = true <->
   (eq_nocase exten (exten_of t) \/ eq_nocase exten (macroexten t)) /\
   eq_nocase context (dialcontext t)) /\
  forall (chan target : chan_ptr) (walk : list chan_ptr) (w : World),
    chan_at w target = t ->
    (((eq_nocase exten (exten_of t) \/ eq_nocase exten (macroexten t)) /\
      eq_nocase context (dialcontext t)) ->
     eligible t ->
     pickup_by_exten_walk chan exten context (target :: walk) w =
       (let '(r, w', tr) := pickup_do chan target w in
        (r, w', EvLock target :: tr ++ [EvUnlock target]))) /\
    (~ ((eq_nocase exten (exten_of t) \/ eq_nocase exten (macroexten t)) /\
        eq_nocase context (dialcontext t)) ->
     pickup_by_exten_walk chan exten context (target :: walk) w =
       (let '(r, w', tr) := pickup_by_exten_walk chan exten context walk w in
        (r, w', EvLock target :: EvUnlock target :: tr))).
Proof.
  split; [apply exten_match_spec|].
  intros chan target walk w Ht. split.
  - intros Hm He. apply exten_walk_take. unfold exten_passes.
    rewrite Ht. apply andb_true_iff. split.
    + apply exten_match_spec. exact Hm.
    + apply truthy_can_pickup. exact He.
  - intro Hm. apply exten_walk_skip. unfold exten_passes. rewrite Ht.
    destruct (exten_match t exten context) eqn:M; [|reflexivity].
    apply exten_match_spec in M. contradiction.
Qed.

(** C7. The test of the mark walk on a channel passes exactly when the
    channel's variable PICKUPMARK is defined and its value equals, letter
    case apart, the requested mark; a channel without the variable fails
    the test and is passed over. *)
Theorem mark_match_case_insensitive (w : World) (target : chan_ptr)
        (mark : string) :
  (mark_match w target mark = true <->
   exists tmp, pbx_builtin_getvar_helper w target "PICKUPMARK" = Some tmp /\
               eq_nocase tmp mark) /\
  (pbx_builtin_getvar_helper w target "PICKUPMARK" = None ->
   mark_match w target mark = false) /\
  forall (chan : chan_ptr) (walk : list chan_ptr),
    ((exists tmp, pbx_builtin_getvar_helper w target "PICKUPMARK" = Some tmp /\
                  eq_nocase tmp mark) ->
     eligible (chan_at w target) ->
     pickup_by_mark_walk chan mark (target :: walk) w =
       (let '(r, w', tr) := pickup_do chan target w in
        (r, w', EvLock target :: tr ++ [EvUnlock target]))) /\
    (~ (exists tmp, pbx_builtin_getvar_helper w target "PICKUPMARK" = Some tmp /\
                    eq_nocase tmp mark) ->
     pickup_by_mark_walk chan mark (target :: walk) w =
       (let '(r, w', tr) := pickup_by_mark_walk chan mark walk w in
        (r, w', EvLock target :: EvUnlock target :: tr))).
Proof.
  split; [apply mark_match_spec|]. split.
  - intro H. unfold mark_match. unfold PICKUPMARK. rewrite H. reflexivity.
  - intros chan walk. split.
    + intros Hm He. apply mark_walk_take. unfold mark_passes.
      apply andb_true_iff. split.
      * apply mark_match_spec. exact Hm.
      * apply truthy_can_pickup. exact He.
    + intro Hm. apply mark_walk_skip. unfold mark_passes.
      destruct (mark_match w target mark) eqn:M; [|reflexivity].
      apply mark_match_spec in M. contradiction.
Qed.

(** *** The parsing loop, one turn at a time *)

Lemma pickup_exec_loop_turn (chan : chan_ptr) (tmp : option string) :
  pickup_exec_loop chan tmp =
  if ast_strlen_zero tmp then ret tt
  else
    match fst (strsep tmp "&") with
    | None => ret tt
    | Some exten =>
        brk <- pickup_exec_turn chan exten ;;
        if brk : bool then ret tt
        else pickup_exec_loop chan (snd (strsep tmp "&"))
    end.
Proof.
  rewrite pickup_exec_loop_equation_1.
  destruct tmp as [[|c s]|]; reflexivity.
Qed.

(** *** The merge *)

Lemma pickup_do_run (chan target : chan_ptr) (w w1 w2 w3 : World)
      (r1 r2 r3 : Z) :
  ast_answer chan w = (r1, w1) ->
  ast_queue_control chan AST_CONTROL_ANSWER w1 = (r2, w2) ->
  ast_channel_masquerade target chan w2 = (r3, w3) ->
  pickup_do chan target w =
    (if negb (r1 =? 0) then
       (-1, w1,
        [EvDebug 1 ("Call pickup on '%s' by '%s'" ++ nl)%string
                 [name (chan_at w target); name (chan_at w chan)];
         EvAnswer chan;
         EvLog LOG_WARNING ("Unable to answer '%s'" ++ nl)%string
               [name (chan_at w1 chan)]])
     else if negb (r2 =? 0) then
       (-1, w2,
        [EvDebug 1 ("Call pickup on '%s' by '%s'" ++ nl)%string
                 [name (chan_at w target); name (chan_at w chan)];
         EvAnswer chan; EvQueueControl chan AST_CONTROL_ANSWER;
         EvLog LOG_WARNING ("Unable to queue answer on '%s'" ++ nl)%string
               [name (chan_at w2 chan)]])
     else if negb (r3 =? 0) then
       (-1, w3,
        [EvDebug 1 ("Call pickup on '%s' by '%s'" ++ nl)%string
                 [name (chan_at w target); name (chan_at w chan)];
         EvAnswer chan; EvQueueControl chan AST_CONTROL_ANSWER;
         EvMasquerade target chan;
         EvLog LOG_WARNING
               ("Unable to masquerade '%s' into '%s'" ++ nl)%string
               [name (chan_at w3 chan); name (chan_at w3 target)]])
     else (0, w3,
           [EvDebug 1 ("Call pickup on '%s' by '%s'" ++ nl)%string
                    [name (chan_at w target); name (chan_at w chan)];
            EvAnswer chan; EvQueueControl chan AST_CONTROL_ANSWER;
            EvMasquerade target chan])).
Proof.
  intros A Q K.
  unfold pickup_do, ast_debug, ast_log.
  rewrite !run_deref_bind, run_emit_bind.
  unfold bind at 1. unfold call at 1. rewrite A. unfold truthy.
  destruct (Z.eqb_spec r1 0) as [e1|n1]; cbn [negb].
  - unfold bind at 1. unfold call at 1. rewrite Q.
    destruct (Z.eqb_spec r2 0) as [e2|n2]; cbn [negb].
    + unfold bind at 1. unfold call at 1. rewrite K.
      destruct (Z.eqb_spec r3 0) as [e3|n3]; cbn [negb].
      * subst r3. reflexivity.
      * rewrite !run_deref_bind. reflexivity.
    + rewrite run_deref_bind. reflexivity.
  - rewrite run_deref_bind. reflexivity.
Qed.

(** The merge returns 0 or -1. *)
Lemma pickup_do_result (chan target : chan_ptr) (w : World) :
  fst (fst (pickup_do chan target w)) = 0 \/
  fst (fst (pickup_do chan target w)) = -1.
Proof.
  destruct (ast_answer chan w) as [r1 w1] eqn:A.
  destruct (ast_queue_control chan AST_CONTROL_ANSWER w1) as [r2 w2] eqn:Q.
  destruct (ast_channel_masquerade target chan w2) as [r3 w3] eqn:K.
  rewrite (pickup_do_run _ _ _ _ _ _ _ _ _ A Q K).
  destruct (negb (r1 =? 0)); [now right|].
  destruct (negb (r2 =? 0)); [now right|].
  destruct (negb (r3 =? 0)); [now right | now left].
Qed.

(** The merge locks and unlocks nothing itself. *)
Lemma pickup_do_no_lock (chan target p : chan_ptr) (w : World) :
  ~ In (EvLock p) (snd (pickup_do chan target w)).
Proof.
  destruct (ast_answer chan w) as [r1 w1] eqn:A.
  destruct (ast_queue_control chan AST_CONTROL_ANSWER w1) as [r2 w2] eqn:Q.
  destruct (ast_channel_masquerade target chan w2) as [r3 w3] eqn:K.
  rewrite (pickup_do_run _ _ _ _ _ _ _ _ _ A Q K).
  destruct (negb (r1 =? 0)); [|destruct (negb (r2 =? 0));
                                [|destruct (negb (r3 =? 0))]];
    cbn [snd]; intro H;
    repeat (destruct H as [H|H]; [discriminate H|]); exact H.
Qed.

(** C3. [pickup_do] answers the requester, then queues the answer control
    frame on it, then masquerades the target into it, in that order.  A
    step that does not return 0 ends the merge with -1 after its warning:
    the later steps are not called, and the engine is left as the failed
    step left it, with nothing undone.  So the masquerade is called only
    after both the answer and the queueing returned 0. *)
Theorem pickup_do_steps (chan target : chan_ptr) (w : World) :
  let dbg := EvDebug 1 ("Call pickup on '%s' by '%s'" ++ nl)%string
                     [name (chan_at w target); name (chan_at w chan)] in
  let ans := EvAnswer chan in
  let que := EvQueueControl chan AST_CONTROL_ANSWER in
  let masq := EvMasquerade target chan in
  let '(r1, w1) := ast_answer chan w in
  let '(r2, w2) := ast_queue_control chan AST_CONTROL_ANSWER w1 in
  let '(r3, w3) := ast_channel_masquerade target chan w2 in
  pickup_do chan target w =
    (if negb (r1 =? 0) then
       (-1, w1,
        [dbg; ans;
         EvLog LOG_WARNING ("Unable to answer '%s'" ++ nl)%string
               [name (chan_at w1 chan)]])
     else if negb (r2 =? 0) then
       (-1, w2,
        [dbg; ans; que;
         EvLog LOG_WARNING ("Unable to queue answer on '%s'" ++ nl)%string
               [name (chan_at w2 chan)]])
     else if negb (r3 =? 0) then
       (-1, w3,
        [dbg; ans; que; masq;
         EvLog LOG_WARNING
               ("Unable to masquerade '%s' into '%s'" ++ nl)%string
               [name (chan_at w3 chan); name (chan_at w3 target)]])
     else (0, w3, [dbg; ans; que; masq])) /\
  (forall original clone,
      In (EvMasquerade original clone) (snd (pickup_do chan target w)) ->
      r1 = 0 /\ r2 = 0).
Proof.
  cbv zeta.
  destruct (ast_answer chan w) as [r1 w1] eqn:A.
  destruct (ast_queue_control chan AST_CONTROL_ANSWER w1) as [r2 w2] eqn:Q.
  destruct (ast_channel_masquerade target chan w2) as [r3 w3] eqn:K.
  pose proof (pickup_do_run _ _ _ _ _ _ _ _ _ A Q K) as R.
  split; [exact R|].
  intros original clone. rewrite R.
  destruct (Z.eqb_spec r1 0) as [e1|n1]; cbn [negb snd].
  - destruct (Z.eqb_spec r2 0) as [e2|n2]; cbn [negb snd].
    + intros _. split; assumption.
    + intros [H|[H|[H|[H|[]]]]]; discriminate H.
  - intros [H|[H|[H|[]]]]; discriminate H.
Qed.

(** *** A whole walk *)

Lemma pickup_by_exten_run (chan : chan_ptr) (exten context : string)
      (w : World) :
  pickup_by_exten chan exten context w =
  pickup_by_exten_walk chan exten context (channels w) w.
Proof.
  exact (run_get_bind
           (fun x => pickup_by_exten_walk chan exten context (channels x)) w).
Qed.

Lemma pickup_by_mark_run (chan : chan_ptr) (mark : string) (w : World) :
  pickup_by_mark chan mark w = pickup_by_mark_walk chan mark (channels w) w.
Proof.
  exact (run_get_bind
           (fun x => pickup_by_mark_walk chan mark (channels x)) w).
Qed.

Lemma exten_walk_none (chan : chan_ptr) (exten context : string)
      (walk : list chan_ptr) (w : World) :
  (forall p, In p walk -> exten_passes w exten context p = false) ->
  pickup_by_exten_walk chan exten context walk w = (-1, w, passed_over walk).
Proof.
  induction walk as [|target walk IH]; intro H; [reflexivity|].
  rewrite exten_walk_skip by (apply H; now left).
  rewrite IH by (intros p Hp; apply H; now right).
  reflexivity.
Qed.

Lemma exten_walk_first (chan target : chan_ptr) (exten context : string)
      (pre post : list chan_ptr) (w : World) :
  (forall p, In p pre -> exten_passes w exten context p = false) ->
  exten_passes w exten context target = true ->
  pickup_by_exten_walk chan exten context (pre ++ target :: post) w =
  let '(r, w', tr) := pickup_do chan target w in
  (r, w', passed_over pre ++ EvLock target :: tr ++ [EvUnlock target]).
Proof.
  intros Hpre Ht. induction pre as [|q pre IH].
  - apply exten_walk_take. exact Ht.
  - rewrite <- app_comm_cons.
    rewrite exten_walk_skip by (apply Hpre; now left).
    rewrite IH by (intros p Hp; apply Hpre; now right).
    destruct (pickup_do chan target w) as [[r w'] tr]. reflexivity.
Qed.

Lemma mark_walk_none (chan : chan_ptr) (mark : string)
      (walk : list chan_ptr) (w : World) :
  (forall p, In p walk -> mark_passes w mark p = false) ->
  pickup_by_mark_walk chan mark walk w = (-1, w, passed_over walk).
Proof.
  induction walk as [|target walk IH]; intro H; [reflexivity|].
  rewrite mark_walk_skip by (apply H; now left).
  rewrite IH by (intros p Hp; apply H; now right).
  reflexivity.
Qed.

Lemma mark_walk_first (chan target : chan_ptr) (mark : string)
      (pre post : list chan_ptr) (w : World) :
  (forall p, In p pre -> mark_passes w mark p = false) ->
  mark_passes w mark target = true ->
  pickup_by_mark_walk chan mark (pre ++ target :: post) w =
  let '(r, w', tr) := pickup_do chan target w in
  (r, w', passed_over pre ++ EvLock target :: tr ++ [EvUnlock target]).
Proof.
  intros Hpre Ht. induction pre as [|q pre IH].
  - apply mark_walk_take. exact Ht.
  - rewrite <- app_comm_cons.
    rewrite mark_walk_skip by (apply Hpre; now left).
    rewrite IH by (intros p Hp; apply Hpre; now right).
    destruct (pickup_do chan target w) as [[r w'] tr]. reflexivity.
Qed.

Lemma passed_over_locks (l : list chan_ptr) (p : chan_ptr) :
  In (EvLock p) (passed_over l) -> In p l.
Proof.
  induction l as [|q l IH]; simpl; [tauto|].
  intros [H|[H|H]]; [injection H; auto | discriminate H | auto].
Qed.

(** The locks taken by a walk that stops at [target] after [pre]. *)
Lemma stopped_walk_locks (chan target p : chan_ptr) (pre : list chan_ptr)
      (w : World) :
  In (EvLock p)
     (snd (let '(r, w', tr) := pickup_do chan target w in
           (r, w', passed_over pre ++ EvLock target :: tr ++ [EvUnlock target]))) ->
  In p pre \/ p = target.
Proof.
  pose proof (pickup_do_no_lock chan target p w) as N.
  destruct (pickup_do chan target w) as [[r w'] tr]. cbn [snd] in *.
  rewrite in_app_iff. intros [H|[H|H]].
  - left. apply passed_over_locks. exact H.
  - right. injection H. auto.
  - apply in_app_iff in H. destruct H as [H|[H|[]]];
      [contradiction | discriminate H].
Qed.

(** C8. In the registry's walk order, the first channel that passes both
    the match test and [can_pickup] is the one handed to [pickup_do], and
    the walk ends with it: the channels before it are locked, unlocked and
    passed over, no channel after it is locked at all, and the result is
    that of the single merge.  This holds for the extension walk and for
    the mark walk. *)
Theorem first_match_wins (chan target : chan_ptr) (pre post : list chan_ptr)
        (w : World) :
  channels w = pre ++ target :: post ->
  (forall exten context,
      (forall p, In p pre -> exten_passes w exten context p = false) ->
      exten_passes w exten context target = true ->
      pickup_by_exten chan exten context w =
        (let '(r, w', tr) := pickup_do chan target w in
         (r, w', passed_over pre ++ EvLock target :: tr ++ [EvUnlock target]))
      /\ forall p, In (EvLock p) (snd (pickup_by_exten chan exten context w)) ->
                   In p pre \/ p = target) /\
  (forall mark,
      (forall p, In p pre -> mark_passes w mark p = false) ->
      mark_passes w mark target = true ->
      pickup_by_mark chan mark w =
        (let '(r, w', tr) := pickup_do chan target w in
         (r, w', passed_over pre ++ EvLock target :: tr ++ [EvUnlock target]))
      /\ forall p, In (EvLock p) (snd (pickup_by_mark chan mark w)) ->
                   In p pre \/ p = target).
Proof.
  intro Hw. split.
  - intros exten context Hpre Ht.
    assert (R := exten_walk_first chan target exten context pre post w Hpre Ht).
    rewrite <- Hw, <- pickup_by_exten_run in R.
    split; [exact R|]. intro p. rewrite R. apply stopped_walk_locks.
  - intros mark Hpre Ht.
    assert (R := mark_walk_first chan target mark pre post w Hpre Ht).
    rewrite <- Hw, <- pickup_by_mark_run in R.
    split; [exact R|]. intro p. rewrite R. apply stopped_walk_locks.
Qed.

(** *** The driver *)


(** C1. For a request that is not empty the driver returns 0, whatever the
    registry holds and whatever the engine's calls return: whether no
    target was found, a merge failed or a merge succeeded. *)
Theorem nonempty_request_returns_zero (chan : chan_ptr)
        (data : option string) (w : World) :
  ast_strlen_zero data = false ->
  exists w' tr, pickup_exec chan data w = Done (0, w', tr).
Proof.
  intro H. destruct data as [s|]; [|discriminate H].
  unfold pickup_exec. cbn [ast_strdupa]. rewrite H. unfold bind, ret.
  destruct (pickup_exec_loop chan (Some s) w) as [[u w'] tr].
  exists w', (tr ++ []). reflexivity.
Qed.

(** *** One turn of the driver *)

Lemma pickup_exec_turn_run (chan : chan_ptr) (tok : string) (w : World) :
  pickup_exec_turn chan tok w =
  let exten := fst (strchr_cut tok "@") in
  let '(r, w1, t1) :=
    pickup_exec_scan chan exten (snd (strchr_cut tok "@")) w in
  if r =? 0 then (true, w1, t1) else (false, w1, t1 ++ [no_target exten]).
Proof.
  unfold pickup_exec_turn. destruct (strchr_cut tok "@") as [exten context].
  cbn [fst snd]. rewrite run_bind.
  destruct (pickup_exec_scan chan exten context w) as [[r w1] t1].
  unfold lnot. destruct (r =? 0).
  - unfold ret. rewrite app_nil_r. reflexivity.
  - reflexivity.
Qed.

Lemma pickup_exec_scan_no_context (chan : chan_ptr) (exten : string)
      (w : World) :
  pickup_exec_scan chan exten None w =
  pickup_by_exten chan exten (context (chan_at w chan)) w.
Proof.
  unfold pickup_exec_scan. cbn [ast_strlen_zero negb andb].
  apply run_deref_bind.
Qed.

Lemma pickup_exec_scan_empty_context (chan : chan_ptr) (exten : string)
      (w : World) :
  pickup_exec_scan chan exten (Some EmptyString) w =
  pickup_by_exten chan exten (context (chan_at w chan)) w.
Proof.
  unfold pickup_exec_scan. cbn [ast_strlen_zero negb andb].
  apply run_deref_bind.
Qed.

Lemma pickup_exec_loop_run (chan : chan_ptr) (s : string) (w : World) :
  s <> EmptyString ->
  pickup_exec_loop chan (Some s) w =
  let '(brk, w1, t1) :=
    pickup_exec_turn chan (fst (strsep_str s "&")) w in
  if brk : bool then (tt, w1, t1)
  else
    let '(u, w2, t2) := pickup_exec_loop chan (snd (strsep_str s "&")) w1 in
    (u, w2, t1 ++ t2).
Proof.
  intro Hs. rewrite pickup_exec_loop_turn.
  destruct s as [|c s]; [contradiction|]. cbn [ast_strlen_zero].
  unfold strsep. destruct (strsep_str (String c s) "&") as [tok rest].
  cbn [fst snd]. rewrite run_bind.
  destruct (pickup_exec_turn chan tok w) as [[brk w1] t1].
  destruct brk.
  - unfold ret. rewrite app_nil_r. reflexivity.
  - reflexivity.
Qed.

Lemma pickup_exec_loop_done (chan : chan_ptr) (tmp : option string)
      (w : World) :
  ast_strlen_zero tmp = true -> pickup_exec_loop chan tmp w = (tt, w, []).
Proof.
  intro H. rewrite pickup_exec_loop_turn, H. reflexivity.
Qed.

Lemma pickup_exec_run (chan : chan_ptr) (data : option string) (w : World) :
  ast_strlen_zero data = false ->
  pickup_exec chan data w =
  Done (let '(u, w', tr) := pickup_exec_loop chan data w in (0, w', tr)).
Proof.
  intro H. destruct data as [s|]; [|discriminate H].
  unfold pickup_exec. cbn [ast_strdupa]. rewrite H, run_bind.
  destruct (pickup_exec_loop chan (Some s) w) as [[u w'] tr].
  unfold ret. rewrite app_nil_r. reflexivity.
Qed.

Lemma pickup_exec_scan_mark (chan : chan_ptr) (exten context : string)
      (w : World) :
  context <> EmptyString ->
  eq_nocase context PICKUPMARK ->
  pickup_exec_scan chan exten (Some context) w = pickup_by_mark chan exten w.
Proof.
  intros Hne Hc. unfold pickup_exec_scan. cbn [str_of].
  apply lnot_strcasecmp in Hc. rewrite Hc.
  destruct context; [contradiction | reflexivity].
Qed.

(** C2. On the request "10@PICKUPMARK&20" the driver first runs the mark
    walk for "10".  When that walk returns 0, which it does when it found
    a target and the merge succeeded, the driver stops there: the run is
    the run of the mark walk and "20" is not looked at.  Otherwise, also
    when a target was found and the merge failed, it logs the notice for
    "10" and runs the extension walk for "20" in the requester's context
    from the state the mark walk left. *)
Theorem mark_before_extension (chan : chan_ptr) (w : World) :
  let '(r, w1, t1) := pickup_by_mark chan "10" w in
  pickup_exec chan (Some "10@PICKUPMARK&20") w =
    Done
      (if r =? 0 then (0, w1, t1)
       else
         let '(r2, w2, t2) :=
           pickup_by_exten chan "20" (context (chan_at w1 chan)) w1 in
         (0, w2,
          t1 ++ no_target "10" :: t2
             ++ (if r2 =? 0 then [] else [no_target "20"]))).
Proof.
  destruct (pickup_by_mark chan "10" w) as [[r w1] t1] eqn:Hm.
  rewrite pickup_exec_run by reflexivity.
  rewrite pickup_exec_loop_run by discriminate.
  change (strsep_str "10@PICKUPMARK&20" "&")
    with ("10@PICKUPMARK", Some "20").
  cbn [fst snd]. rewrite pickup_exec_turn_run.
  change (strchr_cut "10@PICKUPMARK" "@") with ("10", Some "PICKUPMARK").
  cbn [fst snd].
  rewrite pickup_exec_scan_mark by (discriminate || reflexivity).
  rewrite Hm. destruct (r =? 0); [reflexivity|].
  rewrite pickup_exec_loop_run by discriminate.
  change (strsep_str "20" "&") with ("20", @None string).
  cbn [fst snd]. rewrite pickup_exec_turn_run.
  change (strchr_cut "20" "@") with ("20", @None string).
  cbn [fst snd]. rewrite pickup_exec_scan_no_context.
  destruct (pickup_by_exten chan "20" (context (chan_at w1 chan)) w1)
    as [[r2 w2] t2].
  destruct (r2 =? 0).
  - rewrite app_nil_r, <- app_assoc. reflexivity.
  - rewrite pickup_exec_loop_done by reflexivity.
    rewrite app_nil_r, <- !app_assoc. reflexivity.
Qed.


(** C10. A spec with an empty context, "exten@", is handled as the spec
    "exten" without a context: the mark walk is not run, the extension
    walk is run with the requester's own context, the notice names the
    same extension, and the rest of the request is read the same way. *)
Theorem empty_context_is_no_context (chan : chan_ptr) (id : string)
        (w : World) :
  free_of "@" id ->
  pickup_exec_turn chan (id ++ "@")%string w = pickup_exec_turn chan id w /\
  pickup_exec_turn chan (id ++ "@")%string w =
    (let '(r, w1, t1) :=
       pickup_by_exten chan id (context (chan_at w chan)) w in
     if r =? 0 then (true, w1, t1) else (false, w1, t1 ++ [no_target id])) /\
  (free_of "&" id ->
   forall rest,
     pickup_exec_loop chan (Some (id ++ "@&" ++ rest)%string) w =
     pickup_exec_loop chan (Some (id ++ "&" ++ rest)%string) w) /\
  (free_of "&" id -> id <> EmptyString ->
   pickup_exec chan (Some (id ++ "@")%string) w =
   pickup_exec chan (Some id) w).
Proof.
  intro Hat.
  assert (T1 : pickup_exec_turn chan (id ++ "@")%string w =
               (let '(r, w1, t1) :=
                  pickup_by_exten chan id (context (chan_at w chan)) w in
                if r =? 0 then (true, w1, t1)
                else (false, w1, t1 ++ [no_target id]))).
  { rewrite pickup_exec_turn_run, (strchr_cut_app _ _ _ Hat).
    cbn [fst snd]. rewrite pickup_exec_scan_empty_context. reflexivity. }
  assert (T2 : pickup_exec_turn chan id w =
               (let '(r, w1, t1) :=
                  pickup_by_exten chan id (context (chan_at w chan)) w in
                if r =? 0 then (true, w1, t1)
                else (false, w1, t1 ++ [no_target id]))).
  { rewrite pickup_exec_turn_run, (strchr_cut_free _ _ Hat).
    cbn [fst snd]. rewrite pickup_exec_scan_no_context. reflexivity. }
  assert (T : forall w', pickup_exec_turn chan (id ++ "@")%string w' =
                         pickup_exec_turn chan id w').
  { intro w'.
    rewrite !pickup_exec_turn_run, (strchr_cut_app _ _ _ Hat),
      (strchr_cut_free _ _ Hat).
    cbn [fst snd].
    rewrite pickup_exec_scan_empty_context, pickup_exec_scan_no_context.
    reflexivity. }
  split; [apply T|]. split; [exact T1|]. split.
  - intros Hamp rest.
    assert (Hamp' : free_of "&" (id ++ "@")%string).
    { apply free_of_app; [exact Hamp | simpl; split; [discriminate | exact I]]. }
    rewrite !pickup_exec_loop_run by apply append_nonempty.
    change (id ++ "@&" ++ rest)%string
      with (id ++ String "@" (String "&" rest))%string.
    rewrite (append_String_end id "@" (String "&" rest)).
    rewrite (strsep_str_app "&" _ rest Hamp').
    change (id ++ "&" ++ rest)%string with (id ++ String "&" rest)%string.
    rewrite (strsep_str_app "&" _ rest Hamp).
    cbn [fst snd]. rewrite T. reflexivity.
  - intros Hamp Hne.
    assert (Hamp' : free_of "&" (id ++ "@")%string).
    { apply free_of_app; [exact Hamp | simpl; split; [discriminate | exact I]]. }
    rewrite !pickup_exec_run.
    + rewrite !pickup_exec_loop_run by
          (apply append_nonempty || exact Hne).
      rewrite (strsep_str_free "&" _ Hamp'), (strsep_str_free "&" _ Hamp).
      cbn [fst snd]. rewrite T. reflexivity.
    + destruct id; [contradiction | reflexivity].
    + destruct id; reflexivity.
Qed.

End Properties.

(** ** The properties at work on the small engine *)

Import Scenario.

Lemma nonempty_request_returns_zero_witness :
  ast_strlen_zero (Some "100") = false /\
  exists w' tr, pickup_exec 1%N (Some "100") world_D = Done (0, w', tr).
Proof.
  split; [reflexivity|].
  apply (nonempty_request_returns_zero 1%N (Some "100") world_D).
  reflexivity.
Defined.

Lemma pickup_do_steps_witness :
  pickup_do 1%N 2%N world_D =
  (-1, world_D,
   [EvDebug 1 ("Call pickup on '%s' by '%s'" ++ nl)%string
            ["SIP/b-2"; "SIP/a-1"];
    EvAnswer 1%N;
    EvLog LOG_WARNING ("Unable to answer '%s'" ++ nl)%string ["SIP/a-1"]]).
Proof.
  exact (proj1 (pickup_do_steps 1%N 2%N world_D)).
Defined.


Lemma can_pickup_eligibility_witness :
  can_pickup (fields requester) = 0 /\
  pickup_by_exten_walk 1%N "s" "" [1%N; 2%N; 6%N] world_A =
    (let '(r, w', tr) := pickup_by_exten_walk 1%N "s" "" [2%N; 6%N] world_A in
     (r, w', EvLock 1%N :: EvUnlock 1%N :: tr)).
Proof.
  pose proof (can_pickup_eligibility (fields requester)) as [_ [_ H]].
  split; [reflexivity|].
  apply (H 1%N 1%N "s" "" "" [2%N; 6%N] world_A).
  - reflexivity.
  - left. discriminate.
Defined.

Lemma exten_match_case_insensitive_witness :
  exten_match (fields ringing_100_too) "100" "DEFAULT" = true /\
  pickup_by_exten_walk 1%N "100" "DEFAULT" [6%N] world_A =
    (let '(r, w', tr) := pickup_do 1%N 6%N world_A in
     (r, w', EvLock 6%N :: tr ++ [EvUnlock 6%N])).
Proof.
  pose proof (exten_match_case_insensitive (fields ringing_100_too)
                                           "100" "DEFAULT") as [Hiff H].
  assert (M : (eq_nocase "100" (exten_of (fields ringing_100_too)) \/
               eq_nocase "100" (macroexten (fields ringing_100_too))) /\
              eq_nocase "DEFAULT" (dialcontext (fields ringing_100_too))).
  { split; [right|]; reflexivity. }
  split.
  - apply Hiff. exact M.
  - apply (H 1%N 6%N [] world_A).
    + reflexivity.
    + exact M.
    + split; [reflexivity | right; reflexivity].
Defined.

Lemma mark_match_case_insensitive_witness :
  mark_match world_C 3%N "SALES1" = true /\
  mark_match world_C 1%N "SALES1" = false /\
  pickup_by_mark_walk 1%N "SALES1" [3%N] world_C =
    (let '(r, w', tr) := pickup_do 1%N 3%N world_C in
     (r, w', EvLock 3%N :: tr ++ [EvUnlock 3%N])).
Proof.
  assert (M : exists tmp,
             pbx_builtin_getvar_helper world_C 3%N "PICKUPMARK" = Some tmp /\
             eq_nocase tmp "SALES1").
  { exists "sales1". split; reflexivity. }
  split; [|split].
  - apply (proj1 (mark_match_case_insensitive world_C 3%N "SALES1")).
    exact M.
  - apply (proj1 (proj2 (mark_match_case_insensitive world_C 1%N "SALES1"))).
    reflexivity.
  - apply (proj2 (proj2 (mark_match_case_insensitive world_C 3%N "SALES1"))
                 1%N []).
    + exact M.
    + split; [reflexivity | left; reflexivity].
Defined.

Lemma first_match_wins_witness :
  channels world_A = [1%N] ++ 2%N :: [6%N] /\
  exten_passes world_A "100" "default" 6%N = true /\
  pickup_by_exten 1%N "100" "default" world_A =
    (let '(r, w', tr) := pickup_do 1%N 2%N world_A in
     (r, w', passed_over [1%N] ++ EvLock 2%N :: tr ++ [EvUnlock 2%N])) /\
  ~ In (EvLock 6%N) (snd (pickup_by_exten 1%N "100" "default" world_A)).
Proof.
  pose proof (first_match_wins 1%N 2%N [1%N] [6%N] world_A eq_refl)
    as [H _].
  destruct (H "100" "default") as [R L].
  - intros p [<-|[]]. reflexivity.
  - reflexivity.
  - split; [reflexivity|]. split; [reflexivity|]. split; [exact R|].
    intro Hin. destruct (L _ Hin) as [[e|[]]|e]; discriminate e.
Defined.

Lemma empty_context_is_no_context_witness :
  free_of "@" "100" /\
  pickup_exec 1%N (Some "100@") world_A = pickup_exec 1%N (Some "100") world_A /\
  pickup_exec_loop 1%N (Some "100@&20") world_D =
  pickup_exec_loop 1%N (Some "100&20") world_D.
Proof.
  assert (Hat : free_of "@" "100") by (simpl; repeat split; discriminate).
  assert (Hamp : free_of "&" "100") by (simpl; repeat split; discriminate).
  split; [exact Hat|]. split.
  - apply (proj2 (proj2 (proj2
             (empty_context_is_no_context 1%N "100" world_A Hat)))).
    + exact Hamp.
    + discriminate.
  - apply (proj1 (proj2 (proj2
             (empty_context_is_no_context 1%N "100" world_D Hat))) Hamp "20").
Defined.

(** The request "10@PICKUPMARK&20" where the call marked "10" passes the
    mark test and is eligible, but the requester cannot be answered: after
    the failed merge the driver goes on to the extension walk for "20",
    locks the call ringing 20 and tries to pick it up too. *)
Lemma mark_matched_yet_extension_scanned :
  mark_match world_marked 4%N "10" = true /\
  can_pickup (chan_at world_marked 4%N) = 1 /\
  snd (pickup_by_mark 1%N "10" world_marked) =
    [EvLock 1%N; EvUnlock 1%N; EvLock 4%N;
     EvDebug 1 ("Call pickup on '%s' by '%s'" ++ nl)%string
             ["SIP/d-4"; "SIP/a-1"];
     EvAnswer 1%N;
     EvLog LOG_WARNING ("Unable to answer '%s'" ++ nl)%string ["SIP/a-1"];
     EvUnlock 4%N] /\
  pickup_exec 1%N (Some "10@PICKUPMARK&20") world_marked =
  Done
   (0, world_marked,
    [EvLock 1%N; EvUnlock 1%N; EvLock 4%N;
     EvDebug 1 ("Call pickup on '%s' by '%s'" ++ nl)%string
             ["SIP/d-4"; "SIP/a-1"];
     EvAnswer 1%N;
     EvLog LOG_WARNING ("Unable to answer '%s'" ++ nl)%string ["SIP/a-1"];
     EvUnlock 4%N;
     no_target "10";
     EvLock 1%N; EvUnlock 1%N; EvLock 4%N; EvUnlock 4%N; EvLock 5%N;
     EvDebug 1 ("Call pickup on '%s' by '%s'" ++ nl)%string
             ["SIP/e-5"; "SIP/a-1"];
     EvAnswer 1%N;
     EvLog LOG_WARNING ("Unable to answer '%s'" ++ nl)%string ["SIP/a-1"];
     EvUnlock 5%N;
     no_target "20"]).
Proof.
  repeat split; vm_compute; reflexivity.
Qed.


(** Scenario A: extension 100 rings in "default"; the requester, in
    "default", asks for "100" and gets the first of the two calls. *)
Example scenario_A :
  pickup_exec 1%N (Some "100") world_A =
  Done
    (0, world_A,
     [EvLock 1%N; EvUnlock 1%N; EvLock 2%N;
      EvDebug 1 ("Call pickup on '%s' by '%s'" ++ nl)%string
              ["SIP/b-2"; "SIP/a-1"];
      EvAnswer 1%N; EvQueueControl 1%N AST_CONTROL_ANSWER;
      EvMasquerade 2%N 1%N; EvUnlock 2%N]).
Proof. vm_compute. reflexivity. Qed.

(** Scenario B: nothing rings 999; every channel is passed over and the
    notice is logged. *)
Example scenario_B :
  pickup_exec 1%N (Some "999") world_A =
  Done (0, world_A, passed_over [1%N; 2%N; 6%N] ++ [no_target "999"]).
Proof. vm_compute. reflexivity. Qed.

(** Scenario E: the empty request goes to the group pickup. *)
Example scenario_E :
  pickup_exec 1%N (Some EmptyString) (mk_world [requester] 0 0 0 (-1) : World) =
  Done (-1, mk_world [requester] 0 0 0 (-1), [EvPickupCall 1%N]).
Proof. vm_compute. reflexivity. Qed.

(** ** Further properties of the walks and of the driver *)

Section Walks.
Context {E : Engine}.

(** A list either has no element that passes a test, or splits at the
    first one that does. *)
Lemma first_passing_split (f : chan_ptr -> bool) (l : list chan_ptr) :
  (forall p, In p l -> f p = false) \/
  exists pre target post,
    l = pre ++ target :: post /\
    (forall p, In p pre -> f p = false) /\ f target = true.
Proof.
  induction l as [|q l IH].
  - left. intros p [].
  - destruct (f q) eqn:Fq.
    + right. exists [], q, l. repeat split; [intros p [] | exact Fq].
    + destruct IH as [H|[pre [t [post [Hl [Hpre Ht]]]]]].
      * left. intros p [<-|Hp]; auto.
      * right. exists (q :: pre), t, post. rewrite Hl.
        repeat split; [|exact Ht].
        intros p [<-|Hp]; auto.
Qed.

(** What a walk over [l] that tests with [f] comes to, whichever walk it
    is. *)
Lemma walk_cases (chan : chan_ptr) (w : World) (f : chan_ptr -> bool)
      (l : list chan_ptr) (run : Z * World * list event) :
  ((forall p, In p l -> f p = false) -> run = (-1, w, passed_over l)) ->
  (forall pre target post,
      l = pre ++ target :: post ->
      (forall p, In p pre -> f p = false) -> f target = true ->
      run = (let '(r, w', tr) := pickup_do chan target w in
             (r, w', passed_over pre ++ EvLock target :: tr
                                 ++ [EvUnlock target]))) ->
  (fst (fst run) = 0 <->
   exists pre target post,
     l = pre ++ target :: post /\
     (forall p, In p pre -> f p = false) /\ f target = true /\
     fst (fst (pickup_do chan target w)) = 0) /\
  (fst (fst run) = 0 \/ fst (fst run) = -1).
Proof.
  intros Hnone Hfirst.
  assert (R : forall pre t post,
             l = pre ++ t :: post ->
             (forall p, In p pre -> f p = false) -> f t = true ->
             fst (fst run) = fst (fst (pickup_do chan t w))).
  { intros pre t post Hl Hpre Ht. rewrite (Hfirst pre t post Hl Hpre Ht).
    destruct (pickup_do chan t w) as [[r w'] tr]. reflexivity. }
  destruct (first_passing_split f l) as [H|[pre [t [post [Hl [Hpre Ht]]]]]].
  - rewrite (Hnone H). cbn [fst]. split; [|now right].
    split; [discriminate|].
    intros [pre [t [post [Hl [_ [Ht _]]]]]].
    rewrite H in Ht; [discriminate|]. rewrite Hl.
    apply in_or_app. right. now left.
  - split.
    + split.
      * intro H0. exists pre, t, post. repeat split; try assumption.
        rewrite <- (R pre t post Hl Hpre Ht). exact H0.
      * intros [pre' [t' [post' [Hl' [Hpre' [Ht' H0]]]]]].
        rewrite (R pre' t' post' Hl' Hpre' Ht'). exact H0.
    + rewrite (R pre t post Hl Hpre Ht). apply pickup_do_result.
Qed.

(** X1. The extension walk and the mark walk return 0 exactly when some
    channel of the registry passes their test and the merge with the
    first such channel returns 0; in every other case they return -1. *)
Theorem walk_success (chan : chan_ptr) (w : World) :
  (forall exten context,
      (fst (fst (pickup_by_exten chan exten context w)) = 0 <->
       exists pre target post,
         channels w = pre ++ target :: post /\
         (forall p, In p pre -> exten_passes w exten context p = false) /\
         exten_passes w exten context target = true /\
         fst (fst (pickup_do chan target w)) = 0) /\
      (fst (fst (pickup_by_exten chan exten context w)) = 0 \/
       fst (fst (pickup_by_exten chan exten context w)) = -1)) /\
  (forall mark,
      (fst (fst (pickup_by_mark chan mark w)) = 0 <->
       exists pre target post,
         channels w = pre ++ target :: post /\
         (forall p, In p pre -> mark_passes w mark p = false) /\
         mark_passes w mark target = true /\
         fst (fst (pickup_do chan target w)) = 0) /\
      (fst (fst (pickup_by_mark chan mark w)) = 0 \/
       fst (fst (pickup_by_mark chan mark w)) = -1)).
Proof.
  split.
  - intros exten context. apply walk_cases.
    + intro H. rewrite pickup_by_exten_run. apply exten_walk_none. exact H.
    + intros pre t post Hl Hpre Ht. rewrite pickup_by_exten_run, Hl.
      apply exten_walk_first; assumption.
  - intro mark. apply walk_cases.
    + intro H. rewrite pickup_by_mark_run. apply mark_walk_none. exact H.
    + intros pre t post Hl Hpre Ht. rewrite pickup_by_mark_run, Hl.
      apply mark_walk_first; assumption.
Qed.

(** X2. A walk in which no channel passes the test returns -1 and leaves
    the engine as it found it: every channel of the registry is locked
    and unlocked in turn, in walk order, and nothing else is asked of the
    engine. *)
Theorem walk_without_target (chan : chan_ptr) (w : World) :
  (forall exten context,
      (forall p, In p (channels w) ->
                 exten_passes w exten context p = false) ->
      pickup_by_exten chan exten context w
      = (-1, w, passed_over (channels w))) /\
  (forall mark,
      (forall p, In p (channels w) -> mark_passes w mark p = false) ->
      pickup_by_mark chan mark w = (-1, w, passed_over (channels w))).
Proof.
  split.
  - intros exten context H. rewrite pickup_by_exten_run.
    apply exten_walk_none. exact H.
  - intros mark H. rewrite pickup_by_mark_run.
    apply mark_walk_none. exact H.
Qed.

(** *** Letter case *)

Lemma lnot_strcasecmp_nocase (a b b' : string) :
  eq_nocase b b' -> lnot (strcasecmp a b) = lnot (strcasecmp a b').
Proof.
  intro H.
  destruct (lnot (strcasecmp a b)) eqn:L, (lnot (strcasecmp a b')) eqn:L';
    try reflexivity.
  - apply lnot_strcasecmp in L.
    assert (G : eq_nocase a b') by (unfold eq_nocase in *; congruence).
    apply lnot_strcasecmp in G. congruence.
  - apply lnot_strcasecmp in L'.
    assert (G : eq_nocase a b) by (unfold eq_nocase in *; congruence).
    apply lnot_strcasecmp in G. congruence.
Qed.

Lemma exten_walk_ext (chan : chan_ptr) (exten context exten' context' : string)
      (w : World) (walk : list chan_ptr) :
  (forall p, exten_passes w exten context p
             = exten_passes w exten' context' p) ->
  pickup_by_exten_walk chan exten context walk w =
  pickup_by_exten_walk chan exten' context' walk w.
Proof.
  intro H. induction walk as [|t walk IH]; [reflexivity|].
  destruct (exten_passes w exten context t) eqn:P.
  - rewrite !exten_walk_take; [reflexivity | now rewrite <- H | exact P].
  - rewrite !exten_walk_skip; [| now rewrite <- H | exact P].
    rewrite IH. reflexivity.
Qed.

Lemma mark_walk_ext (chan : chan_ptr) (mark mark' : string)
      (w : World) (walk : list chan_ptr) :
  (forall p, mark_passes w mark p = mark_passes w mark' p) ->
  pickup_by_mark_walk chan mark walk w =
  pickup_by_mark_walk chan mark' walk w.
Proof.
  intro H. induction walk as [|t walk IH]; [reflexivity|].
  destruct (mark_passes w mark t) eqn:P.
  - rewrite !mark_walk_take; [reflexivity | now rewrite <- H | exact P].
  - rewrite !mark_walk_skip; [| now rewrite <- H | exact P].
    rewrite IH. reflexivity.
Qed.

(** X3. The walks do not see the letter case of what is asked for: two
    extensions and two contexts, or two marks, that differ only in letter
    case give the same walk: the same result, the same engine state and
    the same trace. *)
Theorem walks_ignore_case (chan : chan_ptr) (w : World) :
  (forall exten exten' context context',
      eq_nocase exten exten' -> eq_nocase context context' ->
      pickup_by_exten chan exten context w =
      pickup_by_exten chan exten' context' w) /\
  (forall mark mark',
      eq_nocase mark mark' ->
      pickup_by_mark chan mark w = pickup_by_mark chan mark' w).
Proof.
  split.
  - intros exten exten' context context' He Hc.
    rewrite !pickup_by_exten_run. apply exten_walk_ext.
    intro p. unfold exten_passes, exten_match.
    rewrite (lnot_strcasecmp_nocase _ _ _ He),
      (lnot_strcasecmp_nocase (exten_of _) _ _ He),
      (lnot_strcasecmp_nocase _ _ _ Hc).
    reflexivity.
  - intros mark mark' Hm.
    rewrite !pickup_by_mark_run. apply mark_walk_ext.
    intro p. unfold mark_passes, mark_match.
    destruct (pbx_builtin_getvar_helper w p PICKUPMARK) as [tmp|];
      [|reflexivity].
    rewrite (lnot_strcasecmp_nocase _ _ _ Hm). reflexivity.
Qed.

End Walks.

(** *** The request as a list of specs *)

Lemma append_assoc_str (a b c : string) :
  ((a ++ b) ++ c)%string = (a ++ (b ++ c))%string.
Proof.
  induction a as [|x a IH]; simpl; [reflexivity|]. rewrite IH. reflexivity.
Qed.

Lemma join_amp_cons (spec spec' : string) (specs : list string) :
  join_amp (spec :: spec' :: specs)
  = (spec ++ String "&" (join_amp (spec' :: specs)))%string.
Proof. reflexivity. Qed.

Lemma join_amp_nonempty (specs : list string) :
  specs <> [] -> last_nonempty specs -> join_amp specs <> EmptyString.
Proof.
  destruct specs as [|x [|y l]]; [congruence | simpl; auto |].
  intros _ _. rewrite join_amp_cons. apply append_nonempty.
Qed.

Lemma strlen_nonzero (s : string) :
  s <> EmptyString -> ast_strlen_zero (Some s) = false.
Proof. destruct s; [congruence | reflexivity]. Qed.

Section Driver.
Context {E : Engine}.

Lemma try_specs_run (chan : chan_ptr) (spec : string) (specs : list string)
      (w : World) :
  try_specs chan (spec :: specs) w =
  let '(brk, w1, t1) := pickup_exec_turn chan spec w in
  if brk : bool then (tt, w1, t1)
  else
    let '(u, w2, t2) := try_specs chan specs w1 in (u, w2, t1 ++ t2).
Proof.
  cbn [try_specs]. rewrite run_bind.
  destruct (pickup_exec_turn chan spec w) as [[brk w1] t1].
  destruct brk; [|reflexivity].
  unfold ret. rewrite app_nil_r. reflexivity.
Qed.

Lemma loop_join_amp (chan : chan_ptr) (specs : list string) :
  Forall (free_of "&") specs -> last_nonempty specs ->
  forall w,
    pickup_exec_loop chan (Some (join_amp specs)) w = try_specs chan specs w.
Proof.
  induction specs as [|x l IH]; intros Hfree Hlast w.
  - apply pickup_exec_loop_done. reflexivity.
  - inversion Hfree as [|? ? Hx Hl]; subst.
    rewrite try_specs_run. destruct l as [|y l].
    + cbn [join_amp last_nonempty] in *.
      rewrite pickup_exec_loop_run by exact Hlast.
      rewrite (strsep_str_free "&" x Hx). cbn [fst snd].
      destruct (pickup_exec_turn chan x w) as [[brk w1] t1].
      destruct brk; [reflexivity|].
      rewrite pickup_exec_loop_done by reflexivity. reflexivity.
    + rewrite join_amp_cons.
      rewrite pickup_exec_loop_run by apply append_nonempty.
      rewrite (strsep_str_app "&" x _ Hx). cbn [fst snd].
      destruct (pickup_exec_turn chan x w) as [[brk w1] t1].
      destruct brk; [reflexivity|].
      rewrite (IH Hl Hlast w1). reflexivity.
Qed.

Lemma loop_join_amp_trailing (chan : chan_ptr) (specs : list string) :
  specs <> [] -> Forall (free_of "&") specs -> last_nonempty specs ->
  forall w,
    pickup_exec_loop chan (Some (join_amp specs ++ "&")%string) w
    = try_specs chan specs w.
Proof.
  induction specs as [|x l IH]; intros Hne Hfree Hlast w; [congruence|].
  inversion Hfree as [|? ? Hx Hl]; subst.
  rewrite try_specs_run. destruct l as [|y l].
  - cbn [join_amp last_nonempty] in *.
    rewrite pickup_exec_loop_run by apply append_nonempty.
    rewrite (strsep_str_app "&" x EmptyString Hx). cbn [fst snd].
    destruct (pickup_exec_turn chan x w) as [[brk w1] t1].
    destruct brk; [reflexivity|].
    rewrite pickup_exec_loop_done by reflexivity. reflexivity.
  - rewrite join_amp_cons.
    change (String "&" (join_amp (y :: l)))
      with ("&" ++ join_amp (y :: l))%string.
    rewrite !append_assoc_str.
    change ("&" ++ join_amp (y :: l) ++ "&")%string
      with (String "&" (join_amp (y :: l) ++ "&"))%string.
    rewrite pickup_exec_loop_run by apply append_nonempty.
    rewrite (strsep_str_app "&" x _ Hx). cbn [fst snd].
    destruct (pickup_exec_turn chan x w) as [[brk w1] t1].
    destruct brk; [reflexivity|].
    rewrite (IH ltac:(discriminate) Hl Hlast w1). reflexivity.
Qed.


(** X5. When the last spec of a request is not empty, a "&" put after it
    is ignored: the run is that of the request without it, and no empty
    spec is tried after the last one.  The condition is needed: the
    request "&" alone is not handled as the empty request, it has one
    turn, for the empty extension in the requester's context. *)
Theorem trailing_amp_is_ignored (chan : chan_ptr) (w : World) :
  (forall specs,
      specs <> [] -> Forall (free_of "&") specs -> last_nonempty specs ->
      pickup_exec chan (Some (join_amp specs ++ "&")%string) w =
      pickup_exec chan (Some (join_amp specs)) w) /\
  pickup_exec chan (Some "&") w =
    Done (let '(r, w1, t1) :=
            pickup_by_exten chan EmptyString (context (chan_at w chan)) w in
          (0, w1, t1 ++ (if r =? 0 then [] else [no_target EmptyString]))).
Proof.
  split.
  - intros specs Hne Hfree Hlast.
    assert (N := join_amp_nonempty specs Hne Hlast).
    rewrite !pickup_exec_run;
      [| apply strlen_nonzero; exact N
       | apply strlen_nonzero; apply append_nonempty ].
    rewrite (loop_join_amp chan specs Hfree Hlast w),
      (loop_join_amp_trailing chan specs Hne Hfree Hlast w).
    reflexivity.
  - rewrite pickup_exec_run by reflexivity.
    rewrite pickup_exec_loop_run by discriminate.
    change (strsep_str "&" "&") with (EmptyString, Some EmptyString).
    cbn [fst snd]. rewrite pickup_exec_turn_run.
    change (strchr_cut EmptyString "@") with (EmptyString, @None string).
    cbn [fst snd]. rewrite pickup_exec_scan_no_context.
    destruct (pickup_by_exten chan EmptyString (context (chan_at w chan)) w)
      as [[r w1] t1].
    destruct (r =? 0).
    + rewrite app_nil_r. reflexivity.
    + rewrite pickup_exec_loop_done by reflexivity.
      rewrite app_nil_r. reflexivity.
Qed.

(** X6. When the scan of the first spec of a request returns 0 the driver
    is done: it returns 0 with the state and the trace of that scan, and
    what follows the first "&" is neither read nor logged. *)
Theorem first_success_ends_request (chan : chan_ptr) (tmp : option string)
        (w : World) :
  ast_strlen_zero tmp = false ->
  let tok := str_of (fst (strsep tmp "&")) in
  let scan := pickup_exec_scan chan (fst (strchr_cut tok "@"))
                               (snd (strchr_cut tok "@")) w in
  fst (fst scan) = 0 ->
  pickup_exec chan tmp w = Done (0, snd (fst scan), snd scan).
Proof.
  intros Hlen. cbv zeta.
  rewrite pickup_exec_run by exact Hlen.
  destruct tmp as [s|]; [|discriminate Hlen].
  assert (Hs : s <> EmptyString) by (intro e; subst s; discriminate Hlen).
  rewrite pickup_exec_loop_run by exact Hs.
  unfold strsep. destruct (strsep_str s "&") as [tok rest].
  cbn [fst snd str_of]. rewrite pickup_exec_turn_run. cbv zeta.
  destruct (pickup_exec_scan chan (fst (strchr_cut tok "@"))
                             (snd (strchr_cut tok "@")) w) as [[r w1] t1].
  cbn [fst snd]. intros ->. reflexivity.
Qed.

Lemma pickup_exec_scan_exten (chan : chan_ptr) (exten context : string)
      (w : World) :
  context <> EmptyString ->
  ~ eq_nocase context PICKUPMARK ->
  pickup_exec_scan chan exten (Some context) w
  = pickup_by_exten chan exten context w.
Proof.
  intros Hne Hc. unfold pickup_exec_scan. cbn [str_of].
  destruct (lnot (strcasecmp context PICKUPMARK)) eqn:L.
  - apply lnot_strcasecmp in L. contradiction.
  - rewrite andb_false_r, run_deref_bind.
    destruct context; [contradiction | reflexivity].
Qed.

(** X7. A request of one spec "exten@context" with a context that is not
    empty: when the context is PICKUPMARK in any letter case, the mark
    walk is run for [exten]; otherwise the extension walk is run for
    [exten] in the context given, not in the requester's.  Only the first
    "@" cuts the spec.  The notice is logged when the walk does not
    return 0, and it names [exten] alone. *)
Theorem single_spec_dispatch (chan : chan_ptr) (exten context : string)
        (w : World) :
  free_of "@" exten -> free_of "&" exten -> free_of "&" context ->
  context <> EmptyString ->
  (eq_nocase context "PICKUPMARK" ->
   pickup_exec chan (Some (exten ++ "@" ++ context)%string) w =
   Done (let '(r, w1, t1) := pickup_by_mark chan exten w in
         (0, w1, t1 ++ (if r =? 0 then [] else [no_target exten])))) /\
  (~ eq_nocase context "PICKUPMARK" ->
   pickup_exec chan (Some (exten ++ "@" ++ context)%string) w =
   Done (let '(r, w1, t1) := pickup_by_exten chan exten context w in
         (0, w1, t1 ++ (if r =? 0 then [] else [no_target exten])))).
Proof.
  intros Hat Hamp Hctx Hne.
  assert (Hfree : free_of "&" (exten ++ "@" ++ context)%string).
  { apply free_of_app; [exact Hamp|]. simpl. split; [discriminate|].
    exact Hctx. }
  assert (R : forall scan : Z * World * list event,
             pickup_exec_scan chan exten (Some context) w = scan ->
             pickup_exec chan (Some (exten ++ "@" ++ context)%string) w =
             Done (let '(r, w1, t1) := scan in
                   (0, w1,
                    t1 ++ (if r =? 0 then [] else [no_target exten])))).
  { intros [[r w1] t1] Hscan.
    rewrite pickup_exec_run by (apply strlen_nonzero, append_nonempty).
    rewrite pickup_exec_loop_run by apply append_nonempty.
    rewrite (strsep_str_free "&" _ Hfree). cbn [fst snd].
    rewrite pickup_exec_turn_run.
    change (exten ++ "@" ++ context)%string
      with (exten ++ String "@" context)%string.
    rewrite (strchr_cut_app "@" exten context Hat). cbn [fst snd].
    rewrite Hscan. destruct (r =? 0).
    - rewrite app_nil_r. reflexivity.
    - rewrite pickup_exec_loop_done by reflexivity.
      rewrite app_nil_r. reflexivity. }
  split; intro Hc; apply R.
  - apply pickup_exec_scan_mark; assumption.
  - apply pickup_exec_scan_exten; assumption.
Qed.

End Driver.

(** *** What every trace of the driver looks like *)

Section Traces.
Context {E : Engine}.

(** A property of traces that holds of the pieces a request is made of
    and is kept by putting traces one after the other holds of the trace
    of the parsing loop. *)
Section Invariant.
Variable P : list event -> Prop.
Hypothesis P_nil : P [].
Hypothesis P_app : forall a b, P a -> P b -> P (a ++ b).
Hypothesis P_passed : forall p, P [EvLock p; EvUnlock p].
Hypothesis P_taken : forall chan target w,
    P (EvLock target :: snd (pickup_do chan target w) ++ [EvUnlock target]).
Hypothesis P_notice : forall exten, P [no_target exten].

Lemma passed_over_invariant (l : list chan_ptr) : P (passed_over l).
Proof.
  induction l as [|p l IH]; [exact P_nil|].
  change (passed_over (p :: l)) with ([EvLock p; EvUnlock p] ++ passed_over l).
  apply P_app; [apply P_passed | exact IH].
Qed.

Lemma walk_invariant (chan : chan_ptr) (w : World) (f : chan_ptr -> bool)
      (l : list chan_ptr) (run : Z * World * list event) :
  ((forall p, In p l -> f p = false) -> run = (-1, w, passed_over l)) ->
  (forall pre target post,
      l = pre ++ target :: post ->
      (forall p, In p pre -> f p = false) -> f target = true ->
      run = (let '(r, w', tr) := pickup_do chan target w in
             (r, w', passed_over pre ++ EvLock target :: tr
                                 ++ [EvUnlock target]))) ->
  P (snd run).
Proof.
  intros Hnone Hfirst.
  destruct (first_passing_split f l) as [H|[pre [t [post [Hl [Hpre Ht]]]]]].
  - rewrite (Hnone H). apply passed_over_invariant.
  - rewrite (Hfirst pre t post Hl Hpre Ht).
    pose proof (P_taken chan t w) as T.
    destruct (pickup_do chan t w) as [[r w'] tr]. cbn [snd] in *.
    apply P_app; [apply passed_over_invariant | exact T].
Qed.

Lemma pickup_by_exten_invariant (chan : chan_ptr) (exten context : string)
      (w : World) :
  P (snd (pickup_by_exten chan exten context w)).
Proof.
  apply (walk_invariant chan w (exten_passes w exten context) (channels w)).
  - intro H. rewrite pickup_by_exten_run. apply exten_walk_none. exact H.
  - intros pre t post Hl Hpre Ht. rewrite pickup_by_exten_run, Hl.
    apply exten_walk_first; assumption.
Qed.

Lemma pickup_by_mark_invariant (chan : chan_ptr) (mark : string) (w : World) :
  P (snd (pickup_by_mark chan mark w)).
Proof.
  apply (walk_invariant chan w (mark_passes w mark) (channels w)).
  - intro H. rewrite pickup_by_mark_run. apply mark_walk_none. exact H.
  - intros pre t post Hl Hpre Ht. rewrite pickup_by_mark_run, Hl.
    apply mark_walk_first; assumption.
Qed.

Lemma pickup_exec_scan_invariant (chan : chan_ptr) (exten : string)
      (context : option string) (w : World) :
  P (snd (pickup_exec_scan chan exten context w)).
Proof.
  unfold pickup_exec_scan.
  destruct (negb (ast_strlen_zero context)
            && lnot (strcasecmp (str_of context) PICKUPMARK))%bool.
  - apply pickup_by_mark_invariant.
  - rewrite run_deref_bind. apply pickup_by_exten_invariant.
Qed.

Lemma pickup_exec_turn_invariant (chan : chan_ptr) (tok : string)
      (w : World) :
  P (snd (pickup_exec_turn chan tok w)).
Proof.
  rewrite pickup_exec_turn_run. cbv zeta.
  pose proof (pickup_exec_scan_invariant chan (fst (strchr_cut tok "@"))
                (snd (strchr_cut tok "@")) w) as S.
  destruct (pickup_exec_scan chan (fst (strchr_cut tok "@"))
                             (snd (strchr_cut tok "@")) w) as [[r w1] t1].
  cbn [snd] in S. destruct (r =? 0); cbn [snd]; [exact S|].
  apply P_app; [exact S | apply P_notice].
Qed.

Lemma pickup_exec_loop_invariant (chan : chan_ptr) (tmp : option string)
      (w : World) :
  P (snd (pickup_exec_loop chan tmp w)).
Proof.
  remember (remaining tmp) as n eqn:Hn.
  revert tmp Hn w.
  induction n as [n IH] using (well_founded_induction lt_wf).
  intros tmp Hn w.
  destruct (ast_strlen_zero tmp) eqn:Hlen.
  - rewrite pickup_exec_loop_done by exact Hlen. exact P_nil.
  - pose proof (strsep_remaining tmp "&" Hlen) as Hdec.
    destruct tmp as [s|]; [|discriminate Hlen].
    assert (Hs : s <> EmptyString) by (intro e; subst s; discriminate Hlen).
    rewrite pickup_exec_loop_run by exact Hs.
    unfold strsep in Hdec.
    destruct (strsep_str s "&") as [tok rest]. cbn [fst snd] in *.
    pose proof (pickup_exec_turn_invariant chan tok w) as T.
    destruct (pickup_exec_turn chan tok w) as [[brk w1] t1].
    cbn [snd] in T. destruct brk; [exact T|].
    assert (L := IH (remaining rest) ltac:(subst n; exact Hdec)
                    rest eq_refl w1).
    destruct (pickup_exec_loop chan rest w1) as [[u w2] t2].
    cbn [snd] in *. apply P_app; assumption.
Qed.

End Invariant.

Lemma locks_after_app (held : option chan_ptr) (a b : list event) :
  locks_after held (a ++ b) =
  match locks_after held a with
  | Some held' => locks_after held' b
  | None => None
  end.
Proof.
  revert held. induction a as [|ev a IH]; intro held; [reflexivity|].
  destruct ev; cbn [locks_after app]; destruct held as [q|];
    try reflexivity; try apply IH.
  - destruct (N.eqb original q); [apply IH | reflexivity].
  - destruct (N.eqb target q); [apply IH | reflexivity].
Qed.

Lemma pickup_do_under_lock (chan target : chan_ptr) (w : World) :
  locks_after (Some target) (snd (pickup_do chan target w))
  = Some (Some target).
Proof.
  destruct (ast_answer chan w) as [r1 w1] eqn:A.
  destruct (ast_queue_control chan AST_CONTROL_ANSWER w1) as [r2 w2] eqn:Q.
  destruct (ast_channel_masquerade target chan w2) as [r3 w3] eqn:K.
  rewrite (pickup_do_run _ _ _ _ _ _ _ _ _ A Q K).
  destruct (negb (r1 =? 0)); [reflexivity|].
  destruct (negb (r2 =? 0)); [reflexivity|].
  destruct (negb (r3 =? 0)); cbn [snd locks_after];
    rewrite N.eqb_refl; reflexivity.
Qed.

Lemma pickup_do_no_group (chan target : chan_ptr) (w : World) :
  Forall (fun ev => is_group_pickup ev = false)
         (snd (pickup_do chan target w)).
Proof.
  destruct (ast_answer chan w) as [r1 w1] eqn:A.
  destruct (ast_queue_control chan AST_CONTROL_ANSWER w1) as [r2 w2] eqn:Q.
  destruct (ast_channel_masquerade target chan w2) as [r3 w3] eqn:K.
  rewrite (pickup_do_run _ _ _ _ _ _ _ _ _ A Q K).
  destruct (negb (r1 =? 0)); [|destruct (negb (r2 =? 0));
                                [|destruct (negb (r3 =? 0))]];
    cbn [snd]; repeat constructor.
Qed.

(** X8. Whatever the request, the registry and the engine's answers, the
    driver returns, keeps the locking discipline and ends with no channel
    locked: one channel is locked at a time, each is unlocked before the
    walk moves on or returns, the requester is answered and signalled and
    the target masqueraded only while that target is the channel locked,
    and the group pickup is called with no channel locked.  It does not
    return only for a NULL request, which faults before anything is asked
    of the engine. *)
Theorem locks_are_released (chan : chan_ptr) (data : option string)
        (w : World) :
  match pickup_exec chan data w with
  | Done run => locks_after None (snd run) = Some None
  | Segfault => data = None
  end.
Proof.
  destruct data as [s|]; [|reflexivity].
  destruct (ast_strlen_zero (Some s)) eqn:Hlen.
  - destruct s; [|discriminate Hlen].
    unfold pickup_exec. cbn [ast_strdupa ast_strlen_zero].
    unfold bind, call, ret.
    destruct (ast_pickup_call chan w) as [r w']. reflexivity.
  - remember (Some s) as data eqn:Hd.
    rewrite pickup_exec_run by exact Hlen.
    pose proof (pickup_exec_loop_invariant
                  (fun tr => locks_after None tr = Some None)) as L.
    specialize (L eq_refl).
    assert (G : locks_after None (snd (pickup_exec_loop chan data w))
                = Some None).
    { apply L.
      - intros a b Ha Hb. rewrite locks_after_app, Ha. exact Hb.
      - intro p. cbn [locks_after]. rewrite N.eqb_refl. reflexivity.
      - intros c t w0. cbn [locks_after].
        rewrite locks_after_app, pickup_do_under_lock.
        cbn [locks_after]. rewrite N.eqb_refl. reflexivity.
      - reflexivity. }
    destruct (pickup_exec_loop chan data w) as [[u w'] tr]. exact G.
Qed.

(** X9. A request that is not empty never reaches the group pickup of the
    engine, whether or not a target is found for any of its specs. *)
Theorem nonempty_request_never_group_pickup (chan : chan_ptr)
        (data : option string) (w : World) :
  ast_strlen_zero data = false ->
  exists run,
    pickup_exec chan data w = Done run /\
    Forall (fun ev => is_group_pickup ev = false) (snd run).
Proof.
  intro Hlen. rewrite pickup_exec_run by exact Hlen.
  eexists. split; [reflexivity|].
  assert (G : Forall (fun ev => is_group_pickup ev = false)
                     (snd (pickup_exec_loop chan data w))).
  { apply (pickup_exec_loop_invariant
             (fun tr => Forall (fun ev => is_group_pickup ev = false) tr)).
    - constructor.
    - intros a b Ha Hb. apply Forall_app. split; assumption.
    - intro p. repeat constructor.
    - intros c t w0. constructor; [reflexivity|].
      apply Forall_app. split; [apply pickup_do_no_group|].
      repeat constructor.
    - intro exten. repeat constructor. }
  destruct (pickup_exec_loop chan data w) as [[u w'] tr]. exact G.
Qed.

(** *** A registry without an eligible channel *)




End Traces.

(** *** The further properties at work on the small engine *)

Lemma walk_success_witness :
  fst (fst (pickup_by_exten 1%N "100" "default" world_A)) = 0 /\
  fst (fst (pickup_by_mark 1%N "sales1" world_A)) = -1.
Proof.
  destruct (walk_success 1%N world_A) as [He Hm]. split.
  - apply (proj1 (He "100" "default")).
    exists [1%N], 2%N, [6%N]. repeat split.
    intros p [<-|[]]. reflexivity.
  - destruct (proj2 (Hm "sales1")) as [H|H]; [|exact H].
    apply (proj1 (Hm "sales1")) in H.
    destruct H as [pre [t [post [Hl [_ [Ht _]]]]]].
    assert (Hin : In t (channels world_A)).
    { rewrite Hl. apply in_or_app. right. now left. }
    destruct Hin as [<-|[<-|[<-|[]]]]; discriminate Ht.
Defined.

Lemma walk_without_target_witness :
  pickup_by_exten 1%N "999" "default" world_A
  = (-1, world_A, passed_over [1%N; 2%N; 6%N]).
Proof.
  apply (proj1 (walk_without_target 1%N world_A) "999" "default").
  intros p [<-|[<-|[<-|[]]]]; reflexivity.
Defined.

Lemma walks_ignore_case_witness :
  pickup_by_exten 1%N "100" "DEFAULT" world_A
  = pickup_by_exten 1%N "100" "default" world_A /\
  pickup_by_mark 1%N "Sales1" world_C = pickup_by_mark 1%N "sales1" world_C.
Proof.
  split.
  - apply (proj1 (walks_ignore_case 1%N world_A)); reflexivity.
  - apply (proj2 (walks_ignore_case 1%N world_C)); reflexivity.
Defined.


Lemma trailing_amp_is_ignored_witness :
  pickup_exec 1%N (Some "100&20&") world_D
  = pickup_exec 1%N (Some "100&20") world_D.
Proof.
  apply (proj1 (trailing_amp_is_ignored 1%N world_D) ["100"; "20"]).
  - discriminate.
  - repeat constructor; discriminate.
  - simpl. discriminate.
Defined.

Lemma first_success_ends_request_witness :
  pickup_exec 1%N (Some "100&999") world_A =
  Done (0, snd (fst (pickup_by_exten 1%N "100" "default" world_A)),
        snd (pickup_by_exten 1%N "100" "default" world_A)).
Proof.
  apply (first_success_ends_request 1%N (Some "100&999") world_A);
    reflexivity.
Defined.

Lemma single_spec_dispatch_witness :
  pickup_exec 1%N (Some "10@pickupmark") world_marked =
  Done (let '(r, w1, t1) := pickup_by_mark 1%N "10" world_marked in
        (0, w1, t1 ++ (if r =? 0 then [] else [no_target "10"]))) /\
  pickup_exec 1%N (Some "400@office") world_marked =
  Done (let '(r, w1, t1) := pickup_by_exten 1%N "400" "office" world_marked in
        (0, w1, t1 ++ (if r =? 0 then [] else [no_target "400"]))).
Proof.
  split.
  - apply (proj1 (single_spec_dispatch 1%N "10" "pickupmark" world_marked
                    ltac:(simpl; repeat split; discriminate)
                    ltac:(simpl; repeat split; discriminate)
                    ltac:(simpl; repeat split; discriminate)
                    ltac:(discriminate))).
    reflexivity.
  - apply (proj2 (single_spec_dispatch 1%N "400" "office" world_marked
                    ltac:(simpl; repeat split; discriminate)
                    ltac:(simpl; repeat split; discriminate)
                    ltac:(simpl; repeat split; discriminate)
                    ltac:(discriminate))).
    discriminate.
Defined.

Lemma nonempty_request_never_group_pickup_witness :
  exists run,
    pickup_exec 1%N (Some "999&100") world_A = Done run /\
    Forall (fun ev => is_group_pickup ev = false) (snd run).
Proof.
  apply (nonempty_request_never_group_pickup 1%N (Some "999&100") world_A).
  reflexivity.
Defined.

